(** * FAudio: UTF-8 to UTF-16 conversion (FAudio_platform_sdl2.c)

    A shallow embedding of [FAudio_UTF8_CodePoint] and
    [FAudio_UTF8_To_UTF16], and the properties of the decoder and of
    the bounded writer that the specification states about them. *)

From Stdlib Require Import ZArith List Bool Lia.
From Equations Require Import Equations.
Import ListNotations.

Local Open Scope Z_scope.

(** ** Machine integers

    The C code computes in [uint8_t], [uint16_t], [uint32_t] and
    [size_t].  Values are kept in [Z]; a conversion to an unsigned type
    of [w] bits is the reduction modulo [2^w], written out wherever the
    source converts or where unsigned arithmetic may wrap. *)

Definition uint8_t (x : Z) : Z := x mod 2 ^ 8.
Definition uint16_t (x : Z) : Z := x mod 2 ^ 16.
Definition uint32_t (x : Z) : Z := x mod 2 ^ 32.

(** [size_t] is taken to be 64 bits wide. *)
Definition size_t (x : Z) : Z := x mod 2 ^ 64.

(** [sizeof (uint16_t)] *)
Definition sizeof_uint16_t : Z := 2.

(** ** Source memory

    [const char *src] points into memory; [memory] gives the [char]
    stored at every offset from that pointer, a cursor is such an
    offset.  A C string is the run of bytes up to the first zero; what
    lies behind it is whatever the memory holds there. *)

Definition memory := nat -> Z.

(** The memory that holds the bytes of [l] at offsets [0 ..] and zero
    bytes behind them. *)
Definition c_string (l : list Z) : memory := fun i => nth i l 0.

(** [NUL m n]: the string at offset 0 of [m] has its terminator at
    offset [n]. *)
Definition NUL (m : memory) (n : nat) : Prop :=
  uint8_t (m n) = 0 /\ forall i, (i < n)%nat -> uint8_t (m i) <> 0.

(** ** The decoder *)

Definition UNICODE_BOGUS_CHAR_VALUE : Z := 0xFFFFFFFF.
Definition UNICODE_BOGUS_CHAR_CODEPOINT : Z := 63. (* '?' *)

(** [(uint32_t) ((uint8_t) *str)] *)
Definition load (m : memory) (str : nat) : Z := uint32_t (uint8_t (m str)).

(** [(o & (128+64)) != 128]: format is not 10xxxxxx *)
Definition not_10xxxxxx (o : Z) : bool := negb (Z.land o (128 + 64) =? 128).

(** The seven values of the [switch] in the three octet case. *)
Definition surrogate_case (retval : Z) : bool :=
  (retval =? 0xD800) || (retval =? 0xDB7F) || (retval =? 0xDB80) ||
  (retval =? 0xDBFF) || (retval =? 0xDC00) || (retval =? 0xDF80) ||
  (retval =? 0xDFFF).

(** [FAudio_UTF8_CodePoint m _str] is the pair of the value returned and
    of the value of [*_str] on return.  The names follow the source:
    [_str] is the caller's cursor, [str] the local copy that the reads
    advance. *)
Definition FAudio_UTF8_CodePoint (m : memory) (_str : nat) : Z * nat :=
  let str := _str in
  let octet := load m str in
  if octet =? 0 then (0, _str)
  else if octet <? 128 then (octet, S _str)
  else if (octet >? 127) && (octet <? 192) then
    (UNICODE_BOGUS_CHAR_VALUE, S _str)
  else if octet <? 224 then
    let _str := S _str in
    let octet := uint32_t (octet - (128 + 64)) in
    let str := S str in let octet2 := load m str in
    if not_10xxxxxx octet2 then (UNICODE_BOGUS_CHAR_VALUE, _str) else
    let _str := (_str + 1)%nat in
    let retval :=
      Z.lor (uint32_t (Z.shiftl octet 6)) (uint32_t (octet2 - 128)) in
    if (retval >=? 0x80) && (retval <=? 0x7FF) then (retval, _str)
    else (UNICODE_BOGUS_CHAR_VALUE, _str)
  else if octet <? 240 then
    let _str := S _str in
    let octet := uint32_t (octet - (128 + 64 + 32)) in
    let str := S str in let octet2 := load m str in
    if not_10xxxxxx octet2 then (UNICODE_BOGUS_CHAR_VALUE, _str) else
    let str := S str in let octet3 := load m str in
    if not_10xxxxxx octet3 then (UNICODE_BOGUS_CHAR_VALUE, _str) else
    let _str := (_str + 2)%nat in
    let retval :=
      Z.lor (Z.lor (uint32_t (Z.shiftl octet 12))
                   (uint32_t (Z.shiftl (uint32_t (octet2 - 128)) 6)))
            (uint32_t (octet3 - 128)) in
    if surrogate_case retval then (UNICODE_BOGUS_CHAR_VALUE, _str)
    else if (retval >=? 0x800) && (retval <=? 0xFFFD) then (retval, _str)
    else (UNICODE_BOGUS_CHAR_VALUE, _str)
  else if octet <? 248 then
    let _str := S _str in
    let octet := uint32_t (octet - (128 + 64 + 32 + 16)) in
    let str := S str in let octet2 := load m str in
    if not_10xxxxxx octet2 then (UNICODE_BOGUS_CHAR_VALUE, _str) else
    let str := S str in let octet3 := load m str in
    if not_10xxxxxx octet3 then (UNICODE_BOGUS_CHAR_VALUE, _str) else
    let str := S str in let octet4 := load m str in
    if not_10xxxxxx octet4 then (UNICODE_BOGUS_CHAR_VALUE, _str) else
    let _str := (_str + 3)%nat in
    let retval :=
      Z.lor (Z.lor (Z.lor (uint32_t (Z.shiftl octet 18))
                          (uint32_t (Z.shiftl (uint32_t (octet2 - 128)) 12)))
                   (uint32_t (Z.shiftl (uint32_t (octet3 - 128)) 6)))
            (uint32_t (octet4 - 128)) in
    if (retval >=? 0x10000) && (retval <=? 0x10FFFF) then (retval, _str)
    else (UNICODE_BOGUS_CHAR_VALUE, _str)
  else if octet <? 252 then
    let _str := S _str in
    let str := S str in let octet := load m str in
    if not_10xxxxxx octet then (UNICODE_BOGUS_CHAR_VALUE, _str) else
    let str := S str in let octet := load m str in
    if not_10xxxxxx octet then (UNICODE_BOGUS_CHAR_VALUE, _str) else
    let str := S str in let octet := load m str in
    if not_10xxxxxx octet then (UNICODE_BOGUS_CHAR_VALUE, _str) else
    let str := S str in let octet := load m str in
    if not_10xxxxxx octet then (UNICODE_BOGUS_CHAR_VALUE, _str) else
    let _str := (_str + 4)%nat in
    (UNICODE_BOGUS_CHAR_VALUE, _str)
  else
    let _str := S _str in
    let str := S str in let octet := load m str in
    if not_10xxxxxx octet then (UNICODE_BOGUS_CHAR_VALUE, _str) else
    let str := S str in let octet := load m str in
    if not_10xxxxxx octet then (UNICODE_BOGUS_CHAR_VALUE, _str) else
    let str := S str in let octet := load m str in
    if not_10xxxxxx octet then (UNICODE_BOGUS_CHAR_VALUE, _str) else
    let str := S str in let octet := load m str in
    if not_10xxxxxx octet then (UNICODE_BOGUS_CHAR_VALUE, _str) else
    let str := S str in let octet := load m str in
    if not_10xxxxxx octet then (UNICODE_BOGUS_CHAR_VALUE, _str) else
    let _str := (_str + 6)%nat in
    (UNICODE_BOGUS_CHAR_VALUE, _str).

(** ** The bounded writer

    The state of [FAudio_UTF8_To_UTF16]: the cursor [src], the units
    stored through [dst] so far, and the remaining byte budget [len].
    The pointer [dst] only moves by the [dst++] of a store, so that it
    is the base of the destination plus the number of units stored: the
    store [*(dst++) = v] appends [v], and the unit at index [i] of the
    list is the one stored to the i-th unit of the destination.
    [calls] is a ghost field, absent from the C code: the cursors at
    which the decoder has been called, oldest first. *)

Record state : Type := State {
  src : nat;
  dst : list Z;
  len : Z;
  calls : list nat
}.

(** [*(dst++) = v;] with the conversion of [v] to [uint16_t] *)
Definition store (v : Z) (s : state) : state :=
  State (src s) (dst s ++ [uint16_t v]) (len s) (calls s).

(** [len -= sizeof (uint16_t);] *)
Definition shrink (s : state) : state :=
  State (src s) (dst s) (size_t (len s - sizeof_uint16_t)) (calls s).

(** [cp = FAudio_UTF8_CodePoint(&src)] *)
Definition decode (m : memory) (s : state) : Z * state :=
  let (cp, src') := FAudio_UTF8_CodePoint m (src s) in
  (cp, State src' (dst s) (len s) (calls s ++ [src s])).

(** How one turn of the [while] loop ends: at a [break], or at the end
    of the body. *)
Inductive flow : Type :=
| Break (s : state)
| Continue (s : state).

(** The body of the [while] loop. *)
Definition loop_body (m : memory) (s : state) : flow :=
  let (cp, s) := decode m s in
  if cp =? 0 then Break s
  else
    let cp :=
      if cp =? UNICODE_BOGUS_CHAR_VALUE then UNICODE_BOGUS_CHAR_CODEPOINT
      else cp in
    if cp >? 0xFFFF then
      if len s <? sizeof_uint16_t * 2 then Break s
      else
        let cp := uint32_t (cp - 0x10000) in
        let s := store (uint32_t (0xD800 + Z.land (Z.shiftr cp 10) 0x3FF)) s in
        let s := shrink s in
        let cp := uint32_t (0xDC00 + Z.land cp 0x3FF) in
        Continue (shrink (store cp s))
    else Continue (shrink (store cp s)).

(** The state a turn of the loop ends in. *)
Definition after (f : flow) : state :=
  match f with Break s => s | Continue s => s end.

(** A value together with the equation that says what it is the value
    of: keeps the outcome of the body at hand for the termination
    argument. *)
Definition inspect {A : Type} (x : A) : {y : A | x = y} := exist _ x eq_refl.

(** The [while] loop: [while (len >= sizeof (uint16_t)) { body }].  It
    ends because a turn that does not [break] takes 2 or 4 off a [len]
    of at least 2. *)
Equations? while_loop (m : memory) (s : state) : state
  by wf (Z.to_nat (len s)) lt :=
  while_loop m s with Z_le_dec sizeof_uint16_t (len s) := {
    | right _ => s
    | left Hlen with inspect (loop_body m s) := {
        | exist _ (Break s') Hbody => s'
        | exist _ (Continue s') Hbody => while_loop m s' } }.
Proof.
  assert (Hs' : s' = after (loop_body m s)) by (rewrite Hbody; reflexivity).
  revert Hbody. subst s'.
  unfold loop_body, decode, sizeof_uint16_t in *.
  destruct (FAudio_UTF8_CodePoint m (src s)) as [cp p'].
  destruct (cp =? 0); [discriminate|].
  assert (Hmod : forall x, 2 <= x -> 0 <= size_t (x - 2) < x).
  { intros x Hx. unfold size_t.
    pose proof (Z.mod_pos_bound (x - 2) (2 ^ 64) ltac:(lia)).
    pose proof (Z.mod_le (x - 2) (2 ^ 64) ltac:(lia) ltac:(lia)). lia. }
  destruct (_ >? 0xFFFF); cbn [len].
  - destruct (Z.ltb_spec (len s) (2 * 2)); [discriminate|].
    intros _. cbn [after shrink store len]. unfold sizeof_uint16_t.
    pose proof (Hmod (len s) Hlen).
    destruct (Z_le_dec 2 (size_t (len s - 2))) as [H2|H2].
    + pose proof (Hmod _ H2). lia.
    + assert (len s >= 2 ^ 64); [|pose proof (Z.mod_pos_bound
        (size_t (len s - 2) - 2) (2 ^ 64) ltac:(lia)); unfold size_t at 1; lia].
      destruct (Z_lt_dec (len s) (2 ^ 64)); [|lia].
      unfold size_t in H2. rewrite Z.mod_small in H2 by lia. lia.
  - intros _. cbn [after shrink store len]. unfold sizeof_uint16_t.
    pose proof (Hmod (len s) Hlen). lia.
Qed.

(** The state in which the loop is entered: [len -= sizeof (uint16_t)]
    saves room for the terminator. *)
Definition initial (n : Z) : state :=
  State 0 [] (size_t (n - sizeof_uint16_t)) [].

(** [FAudio_UTF8_To_UTF16(src, dst, len)]: the final state; its [dst]
    is the sequence of units stored, the terminator included. *)
Definition FAudio_UTF8_To_UTF16 (m : memory) (len : Z) : state :=
  store 0 (while_loop m (initial len)).

(** ** The notions of the specification *)

(** The values the specification calls a decoded scalar: 0 .. 0x10FFFF,
    less seven surrogate code points, 0xFFFE and 0xFFFF. *)
Definition decoded_scalar (c : Z) : Prop :=
  0 <= c <= 0x10FFFF /\
  ~ In c [0xD800; 0xDB7F; 0xDB80; 0xDBFF; 0xDC00; 0xDF80; 0xDFFF] /\
  c <> 0xFFFE /\ c <> 0xFFFF.

(** The octet at [q] has the format 10xxxxxx. *)
Definition continuation (m : memory) (q : nat) : Prop := 128 <= load m q < 192.

(** A five octet sequence at [p]: a leading octet of 0xF8 .. 0xFB and
    four continuation octets. *)
Definition five_octets (m : memory) (p : nat) : Prop :=
  0xF8 <= load m p <= 0xFB /\
  continuation m (p + 1) /\ continuation m (p + 2) /\
  continuation m (p + 3) /\ continuation m (p + 4).

(** A six octet sequence at [p]: a leading octet from 0xFC on and five
    continuation octets. *)
Definition six_octets (m : memory) (p : nat) : Prop :=
  0xFC <= load m p /\
  continuation m (p + 1) /\ continuation m (p + 2) /\
  continuation m (p + 3) /\ continuation m (p + 4) /\
  continuation m (p + 5).

(** The UTF-8 encoding of a scalar (RFC 3629), in its shortest form.
    This is the specification's side of the round trip: the source has
    no encoder. *)
Definition utf8_encode (c : Z) : list Z :=
  if c <? 0x80 then [c]
  else if c <? 0x800 then
    [Z.lor 0xC0 (Z.shiftr c 6); Z.lor 0x80 (Z.land c 0x3F)]
  else if c <? 0x10000 then
    [Z.lor 0xE0 (Z.shiftr c 12);
     Z.lor 0x80 (Z.land (Z.shiftr c 6) 0x3F);
     Z.lor 0x80 (Z.land c 0x3F)]
  else
    [Z.lor 0xF0 (Z.shiftr c 18);
     Z.lor 0x80 (Z.land (Z.shiftr c 12) 0x3F);
     Z.lor 0x80 (Z.land (Z.shiftr c 6) 0x3F);
     Z.lor 0x80 (Z.land c 0x3F)].

(** The octets of [l] are in memory from offset [p] on. *)
Definition holds (m : memory) (p : nat) (l : list Z) : Prop :=
  forall i, (i < length l)%nat -> m (p + i)%nat = nth i l 0.

(** The scalars of the round trip: 0x80 .. 0x7FF, 0x800 .. 0xFFFD less
    the seven surrogate code points, and 0x10000 .. 0x10FFFF. *)
Definition multi_octet_scalar (c : Z) : Prop :=
  0x80 <= c <= 0x7FF \/
  (0x800 <= c <= 0xFFFD /\
   ~ In c [0xD800; 0xDB7F; 0xDB80; 0xDBFF; 0xDC00; 0xDF80; 0xDFFF]) \/
  0x10000 <= c <= 0x10FFFF.

(** The two units of a surrogate pair, in the specification's words. *)
Definition high_surrogate (c : Z) : Z :=
  0xD800 + Z.land (Z.shiftr (c - 0x10000) 10) 0x3FF.
Definition low_surrogate (c : Z) : Z :=
  0xDC00 + Z.land (c - 0x10000) 0x3FF.

(** The string at [m] is not empty. *)
Definition non_empty (m : memory) : Prop := load m 0 <> 0.

(** No octet of the string of [m], whose terminator is at [n], is 0xFC
    or above: the string has no six octet sequence. *)
Definition below_0xFC (m : memory) (n : nat) : Prop :=
  forall i, (i < n)%nat -> load m i < 0xFC.

(** The string FC 80 80 80 80 80 with the octet 41 behind its
    terminator. *)
Definition six_then_A : memory :=
  c_string [0xFC; 0x80; 0x80; 0x80; 0x80; 0x80; 0; 0x41].

(** The same string with eight octets 41 behind its terminator. *)
Definition six_then_As : memory :=
  c_string [0xFC; 0x80; 0x80; 0x80; 0x80; 0x80; 0;
            0x41; 0x41; 0x41; 0x41; 0x41; 0x41; 0x41; 0x41].

(** The number of octets the leading octet [o] announces: the length
    of the branch of the decoder that [o] selects. *)
Definition sequence_length (o : Z) : nat :=
  if o <? 0xC0 then 1
  else if o <? 0xE0 then 2
  else if o <? 0xF0 then 3
  else if o <? 0xF8 then 4
  else if o <? 0xFC then 5
  else 6.

(** The scalar carried by two, three and four octets: the payload bits
    of each, most significant first. *)
Definition payload_2 (o o2 : Z) : Z := (o - 0xC0) * 64 + (o2 - 0x80).
Definition payload_3 (o o2 o3 : Z) : Z :=
  (o - 0xE0) * 4096 + (o2 - 0x80) * 64 + (o3 - 0x80).
Definition payload_4 (o o2 o3 o4 : Z) : Z :=
  (o - 0xF0) * 262144 + (o2 - 0x80) * 4096 + (o3 - 0x80) * 64 + (o4 - 0x80).

(** A string of octets 01 .. 7F. *)
Definition ascii (l : list Z) : Prop := Forall (fun b => 1 <= b <= 127) l.

(** The memory [m] holds the string [l] and its terminator from offset
    [p] on. *)
Definition holds_string (m : memory) (p : nat) (l : list Z) : Prop :=
  holds m p (l ++ [0]).

(** Two memories with the same octets up to offset [n]. *)
Definition same_up_to (n : nat) (m m' : memory) : Prop :=
  forall i, (i <= n)%nat -> m' i = m i.

(** A surrogate code point, 0xD800 .. 0xDFFF. *)
Definition surrogate (c : Z) : Prop := 0xD800 <= c <= 0xDFFF.

(** The unit stored for an octet 01 .. BF met where a sequence starts:
    the octet itself below 0x80, and '?' for a stray continuation
    octet. *)
Definition single_octet_unit (b : Z) : Z :=
  if b <? 0x80 then b else UNICODE_BOGUS_CHAR_CODEPOINT.

(** [ahead s1 s2]: two states of the loop at the same cursor and with
    the same units stored, the second with at least the budget of the
    first. *)
Definition ahead (s1 s2 : state) : Prop :=
  src s2 = src s1 /\ dst s2 = dst s1 /\ 0 <= len s1 <= len s2 /\
  len s2 < 2 ^ 64.

(** ** Facts about the integer conversions *)

Lemma uint8_t_range (x : Z) : 0 <= uint8_t x < 256.
Proof. unfold uint8_t. apply Z.mod_pos_bound. reflexivity. Qed.

Lemma uint32_t_small (x : Z) : 0 <= x < 2 ^ 32 -> uint32_t x = x.
Proof. apply Z.mod_small. Qed.

Lemma uint16_t_small (x : Z) : 0 <= x < 2 ^ 16 -> uint16_t x = x.
Proof. apply Z.mod_small. Qed.

Lemma size_t_range (x : Z) : 0 <= size_t x < 2 ^ 64.
Proof. unfold size_t. apply Z.mod_pos_bound. lia. Qed.

Lemma size_t_sub_small (x k : Z) :
  0 <= k <= x -> x < 2 ^ 64 -> size_t (x - k) = x - k.
Proof. intros H1 H2. unfold size_t. apply Z.mod_small. lia. Qed.

Lemma load_uint8_t (m : memory) (p : nat) : load m p = uint8_t (m p).
Proof.
  unfold load. apply uint32_t_small.
  pose proof (uint8_t_range (m p)). lia.
Qed.

Lemma load_range (m : memory) (p : nat) : 0 <= load m p < 256.
Proof. rewrite load_uint8_t. apply uint8_t_range. Qed.

(** A property of octets that holds of each of the 256 octets holds of
    all of them. *)
Lemma octet_forall (P : Z -> bool) :
  forallb P (map Z.of_nat (seq 0 256)) = true ->
  forall o, 0 <= o < 256 -> P o = true.
Proof.
  intros H o Ho. rewrite forallb_forall in H. apply H.
  rewrite <- (Z2Nat.id o) by lia.
  apply in_map, in_seq. lia.
Qed.

(** The format test of the source, in terms of the value of the octet. *)
Lemma not_10xxxxxx_spec (o : Z) :
  0 <= o < 256 -> not_10xxxxxx o = negb ((128 <=? o) && (o <? 192)).
Proof.
  intros Ho. apply Bool.eqb_prop.
  revert o Ho.
  apply (octet_forall
    (fun o => Bool.eqb (not_10xxxxxx o) (negb ((128 <=? o) && (o <? 192))))).
  vm_compute. reflexivity.
Qed.

Lemma continuation_octet (m : memory) (p : nat) :
  not_10xxxxxx (load m p) = false <-> continuation m p.
Proof.
  unfold continuation.
  rewrite not_10xxxxxx_spec by apply load_range.
  rewrite negb_false_iff, andb_true_iff, Z.leb_le, Z.ltb_lt. reflexivity.
Qed.

Lemma not_continuation_octet (m : memory) (p : nat) :
  not_10xxxxxx (load m p) = true <-> ~ continuation m p.
Proof.
  rewrite <- continuation_octet.
  destruct (not_10xxxxxx _); intuition congruence.
Qed.

Lemma surrogate_case_false (c : Z) :
  surrogate_case c = false ->
  ~ In c [0xD800; 0xDB7F; 0xDB80; 0xDBFF; 0xDC00; 0xDF80; 0xDFFF].
Proof.
  unfold surrogate_case. intros H.
  repeat (apply orb_false_iff in H; destruct H as [H ?]).
  repeat match goal with E : (_ =? _) = false |- _ => apply Z.eqb_neq in E end.
  cbn [In]. intuition congruence.
Qed.

Lemma surrogate_case_true (c : Z) :
  surrogate_case c = true ->
  In c [0xD800; 0xDB7F; 0xDB80; 0xDBFF; 0xDC00; 0xDF80; 0xDFFF].
Proof.
  unfold surrogate_case. intros H. cbn [In].
  repeat (apply orb_true_iff in H; destruct H as [H|H]);
    apply Z.eqb_eq in H; auto 10.
Qed.

(** Turns the outcomes of the tests of the source, kept as equations
    between booleans, into (in)equalities. *)
Ltac tests_to_Prop :=
  repeat match goal with
  | H : not_10xxxxxx (load _ _) = false |- _ =>
      apply continuation_octet in H; unfold continuation in H
  | H : not_10xxxxxx (load _ _) = true |- _ =>
      apply not_continuation_octet in H; unfold continuation in H
  | H : andb _ _ = true |- _ => apply andb_true_iff in H; destruct H
  | H : andb _ _ = false |- _ => apply andb_false_iff in H
  | H : (_ =? _) = true |- _ => apply Z.eqb_eq in H
  | H : (_ =? _) = false |- _ => apply Z.eqb_neq in H
  | H : (_ <? _) = true |- _ => apply Z.ltb_lt in H
  | H : (_ <? _) = false |- _ => apply Z.ltb_ge in H
  | H : (_ <=? _) = true |- _ => apply Z.leb_le in H
  | H : (_ <=? _) = false |- _ => apply Z.leb_gt in H
  | H : (_ >? _) = _ |- _ => rewrite Z.gtb_ltb in H
  | H : (_ >=? _) = _ |- _ => rewrite Z.geb_leb in H
  end.

(** Case analysis along the tests of [FAudio_UTF8_CodePoint]: one goal
    for each path through the function. *)
Ltac decoder_paths :=
  unfold FAudio_UTF8_CodePoint; cbv zeta;
  repeat match goal with
  | |- context [if ?b then _ else _] => destruct b eqn:?
  end.

(** The reads of the source are at [S p], [S (S p)], ...: the same
    offsets as [p + 1], [p + 2], ... *)
Ltac offsets p :=
  replace (S p) with (p + 1)%nat in * by lia;
  replace (S (p + 1)) with (p + 2)%nat in * by lia;
  replace (S (p + 2)) with (p + 3)%nat in * by lia;
  replace (S (p + 3)) with (p + 4)%nat in * by lia;
  replace (S (p + 4)) with (p + 5)%nat in * by lia.

(** Linear arithmetic with quotients and remainders by constants. *)
Ltac div_lia := Z.div_mod_to_equations; lia.

(** ** What the decoder returns *)

(** A value of the decoder that is not the bogus value is at most
    0x10FFFF. *)
Lemma decoder_value_range (m : memory) (p : nat) (cp : Z) (p' : nat) :
  FAudio_UTF8_CodePoint m p = (cp, p') ->
  cp <> UNICODE_BOGUS_CHAR_VALUE -> 0 <= cp <= 0x10FFFF.
Proof.
  intros H Hb. apply (f_equal fst) in H. cbn [fst] in H. subst cp.
  pose proof (load_range m p). revert Hb.
  decoder_paths; cbn [fst]; tests_to_Prop; intros; try contradiction; lia.
Qed.

(** C8: the decoder returns 0, the bogus value, or a scalar of the range
    0 .. 0x10FFFF that is none of the seven surrogate code points of the
    [switch] and neither 0xFFFE nor 0xFFFF. *)
Theorem decoder_returns_scalar_or_bogus (m : memory) (p : nat) :
  let r := fst (FAudio_UTF8_CodePoint m p) in
  r = 0 \/ r = UNICODE_BOGUS_CHAR_VALUE \/ decoded_scalar r.
Proof.
  pose proof (load_range m p).
  decoder_paths; cbn [fst]; auto.
  all: right; right; unfold decoded_scalar; cbn [In].
  all: try match goal with
       | H : surrogate_case _ = false |- _ =>
           apply surrogate_case_false in H; cbn [In] in H
       end.
  all: tests_to_Prop.
  all: repeat split; try lia; try tauto.
Qed.

(** ** How far the decoder moves the cursor *)

(** At the terminator the decoder returns 0 and leaves the cursor where
    it is; a second call there does the same. *)
Lemma decoder_at_terminator (m : memory) (p : nat) :
  load m p = 0 -> FAudio_UTF8_CodePoint m p = (0, p).
Proof.
  intros H. unfold FAudio_UTF8_CodePoint. cbv zeta. rewrite H. reflexivity.
Qed.

Lemma decoder_at_terminator_again (m : memory) (p : nat) :
  load m p = 0 ->
  FAudio_UTF8_CodePoint m (snd (FAudio_UTF8_CodePoint m p)) = (0, p).
Proof.
  intros H. rewrite (decoder_at_terminator m p H). cbn [snd].
  apply decoder_at_terminator. exact H.
Qed.

(** The decoder returns 0 at the terminator only. *)
Lemma decoder_zero_iff (m : memory) (p : nat) :
  fst (FAudio_UTF8_CodePoint m p) = 0 <-> load m p = 0.
Proof.
  split; [|intros H; rewrite decoder_at_terminator by exact H; reflexivity].
  pose proof (load_range m p).
  decoder_paths; cbn [fst]; tests_to_Prop;
    unfold UNICODE_BOGUS_CHAR_VALUE; intros; try lia.
Qed.

(** Away from the terminator every call moves the cursor on, also when
    it returns the bogus value. *)
Lemma decoder_progress (m : memory) (p : nat) :
  load m p <> 0 -> (p + 1 <= snd (FAudio_UTF8_CodePoint m p))%nat.
Proof.
  intros Hp. decoder_paths; cbn [snd]; tests_to_Prop; lia.
Qed.

(** Unless it has parsed a whole six octet sequence, a call moves the
    cursor by at most five octets. *)
Lemma decoder_advance_le_5 (m : memory) (p : nat) :
  ~ six_octets m p -> (snd (FAudio_UTF8_CodePoint m p) <= p + 5)%nat.
Proof.
  intros Hsix. pose proof (load_range m p).
  decoder_paths; cbn [snd]; try lia.
  exfalso. apply Hsix. unfold six_octets, continuation.
  tests_to_Prop. offsets p. intuition lia.
Qed.

(** A whole six octet sequence moves the cursor by seven octets. *)
Lemma decoder_six_octets (m : memory) (p : nat) :
  six_octets m p ->
  FAudio_UTF8_CodePoint m p = (UNICODE_BOGUS_CHAR_VALUE, (p + 7)%nat).
Proof.
  unfold six_octets, continuation. intros Hsix.
  decoder_paths; tests_to_Prop; offsets p; try (exfalso; intuition lia).
  f_equal. lia.
Qed.

(** A whole five octet sequence moves the cursor by five octets. *)
Lemma decoder_five_octets (m : memory) (p : nat) :
  five_octets m p ->
  FAudio_UTF8_CodePoint m p = (UNICODE_BOGUS_CHAR_VALUE, (p + 5)%nat).
Proof.
  unfold five_octets, continuation. intros Hfive.
  decoder_paths; tests_to_Prop; offsets p; try (exfalso; intuition lia).
  f_equal. lia.
Qed.

(** A leading octet from 0xF8 on whose sequence is cut short by an octet
    that is no continuation octet: the bogus value, and the cursor
    behind the leading octet. *)
Lemma decoder_five_six_malformed (m : memory) (p : nat) :
  0xF8 <= load m p -> ~ five_octets m p -> ~ six_octets m p ->
  FAudio_UTF8_CodePoint m p = (UNICODE_BOGUS_CHAR_VALUE, (p + 1)%nat).
Proof.
  unfold five_octets, six_octets, continuation. intros Hlead H5 H6.
  pose proof (load_range m p).
  decoder_paths; tests_to_Prop; offsets p;
    try reflexivity; try (exfalso; lia); exfalso; intuition lia.
Qed.

(** The octets before the terminator are not 0, so that an offset whose
    octet is a continuation octet is not that of the terminator. *)
Lemma NUL_load (m : memory) (n q : nat) :
  NUL m n -> load m q <> 0 -> q <> n.
Proof.
  intros [Hn _] Hq ->. apply Hq. rewrite load_uint8_t. exact Hn.
Qed.

(** Within a string, and unless it has parsed a whole six octet
    sequence, the decoder leaves the cursor within the string: the
    octets it moves over are not 0. *)
Lemma decoder_within_string (m : memory) (n p : nat) :
  NUL m n -> (p <= n)%nat -> ~ six_octets m p ->
  (snd (FAudio_UTF8_CodePoint m p) <= n)%nat.
Proof.
  intros HNUL Hp Hsix.
  pose proof (NUL_load m n p HNUL) as H0.
  pose proof (NUL_load m n (S p) HNUL) as H1.
  pose proof (NUL_load m n (S (S p)) HNUL) as H2.
  pose proof (NUL_load m n (S (S (S p))) HNUL) as H3.
  pose proof (NUL_load m n (S (S (S (S p)))) HNUL) as H4.
  pose proof (decoder_advance_le_5 m p Hsix) as H5. revert H5.
  decoder_paths; cbn [snd]; tests_to_Prop; intros; try lia.
Qed.

(** C4, as the code has it: at the terminator the cursor stays; at any
    other octet a call moves it by at least 1 and, unless it has parsed
    a whole six octet sequence, by at most 6. *)
Theorem decoder_advance (m : memory) (p : nat) :
  let p' := snd (FAudio_UTF8_CodePoint m p) in
  (load m p = 0 -> p' = p) /\
  (load m p <> 0 -> (p + 1 <= p')%nat) /\
  (load m p <> 0 -> ~ six_octets m p -> (p' <= p + 6)%nat).
Proof.
  cbv zeta. split; [|split].
  - intros H. rewrite decoder_at_terminator by exact H. reflexivity.
  - apply decoder_progress.
  - intros _ Hsix. pose proof (decoder_advance_le_5 m p Hsix). lia.
Qed.

Lemma decoder_advance_witness :
  (1 <= snd (FAudio_UTF8_CodePoint (c_string [0xE2; 0x82; 0xAC]%Z) 0)
     <= 6)%nat /\
  snd (FAudio_UTF8_CodePoint (c_string [0x41]%Z) 1) = 1%nat.
Proof.
  pose proof (decoder_advance (c_string [0xE2; 0x82; 0xAC]) 0) as H.
  pose proof (decoder_advance (c_string [0x41]) 1) as H'.
  cbv zeta in H, H'. destruct H as (_ & H1 & H2). destruct H' as (H0 & _).
  split; [split|].
  - apply H1. vm_compute. discriminate.
  - apply H2.
    + vm_compute. discriminate.
    + intros [Hlead _]. apply Hlead. reflexivity.
  - apply H0. reflexivity.
Defined.

(** The claim C4 fails at the end of the string: with the cursor at the
    terminator of "A" the decoder returns 0 and the cursor stays. *)
Lemma decoder_stays_at_terminator :
  FAudio_UTF8_CodePoint (c_string [0x41]) 1 = (0, 1%nat) /\
  ~ (1 + 1 <= snd (FAudio_UTF8_CodePoint (c_string [0x41]%Z) 1))%nat.
Proof.
  assert (H : FAudio_UTF8_CodePoint (c_string [0x41]) 1 = (0, 1%nat))
    by (vm_compute; reflexivity).
  rewrite H. split; [reflexivity | cbn [snd]; lia].
Qed.

(** At a whole six octet sequence the code moves the cursor by seven
    octets, where C5 has six: the leading octet is counted twice, by
    the increment of [*_str] at the head of the branch and by
    [*_str += 6] at its end. *)
Theorem six_octets_move_cursor_by_seven :
  FAudio_UTF8_CodePoint (c_string [0xFC; 0x80; 0x80; 0x80; 0x80; 0x80]) 0 =
    (UNICODE_BOGUS_CHAR_VALUE, 7%nat).
Proof. vm_compute. reflexivity. Qed.

(** ** The round trip through UTF-8 *)

(** Bits that do not overlap: the bitwise or is the sum. *)
Lemma lor_shiftl_add (a b n : Z) :
  0 <= n -> 0 <= b < 2 ^ n -> Z.lor (Z.shiftl a n) b = a * 2 ^ n + b.
Proof.
  intros Hn Hb.
  assert (Hland : Z.land (Z.shiftl a n) b = 0).
  { apply Z.bits_inj'. intros i Hi.
    rewrite Z.land_spec, Z.bits_0.
    destruct (Z_lt_dec i n).
    - rewrite Z.shiftl_spec_low by lia. reflexivity.
    - destruct (Z.eq_dec b 0) as [->|Hb0].
      + rewrite Z.bits_0. apply andb_false_r.
      + rewrite (Z.bits_above_log2 b i); [apply andb_false_r | lia |].
        apply Z.log2_lt_pow2; try lia.
        apply Z.lt_le_trans with (2 ^ n); [lia|].
        apply Z.pow_le_mono_r; lia. }
  rewrite <- Z.lxor_lor by exact Hland.
  rewrite <- Z.add_nocarry_lxor by exact Hland.
  rewrite Z.shiftl_mul_pow2 by lia. reflexivity.
Qed.

Lemma shiftl_mul (a n : Z) : 0 <= n -> Z.shiftl a n = a * 2 ^ n.
Proof. apply Z.shiftl_mul_pow2. Qed.

Lemma land_0x3F (x : Z) : Z.land x 0x3F = x mod 64.
Proof. change 0x3F with (Z.ones 6). apply Z.land_ones. lia. Qed.

Lemma land_0x3FF (x : Z) : Z.land x 0x3FF = x mod 1024.
Proof. change 0x3FF with (Z.ones 10). apply Z.land_ones. lia. Qed.

Lemma shiftr_6 (x : Z) : Z.shiftr x 6 = x / 64.
Proof. apply Z.shiftr_div_pow2. lia. Qed.

Lemma shiftr_12 (x : Z) : Z.shiftr x 12 = x / 4096.
Proof. apply Z.shiftr_div_pow2. lia. Qed.

Lemma shiftr_18 (x : Z) : Z.shiftr x 18 = x / 262144.
Proof. apply Z.shiftr_div_pow2. lia. Qed.

(** A marker of [8 - n] bits over a payload of [n] bits. *)
Lemma lor_marker (k x n : Z) :
  0 <= n -> 0 <= x < 2 ^ n -> Z.lor (k * 2 ^ n) x = k * 2 ^ n + x.
Proof.
  intros Hn Hx. rewrite <- lor_shiftl_add by assumption.
  rewrite shiftl_mul by exact Hn. reflexivity.
Qed.

Lemma lor_0x80 (x : Z) : 0 <= x < 64 -> Z.lor 0x80 x = 128 + x.
Proof. intros H. apply (lor_marker 2 x 6); lia. Qed.

Lemma lor_0xC0 (x : Z) : 0 <= x < 64 -> Z.lor 0xC0 x = 192 + x.
Proof. intros H. apply (lor_marker 3 x 6); lia. Qed.

Lemma lor_0xE0 (x : Z) : 0 <= x < 32 -> Z.lor 0xE0 x = 224 + x.
Proof. intros H. apply (lor_marker 7 x 5); lia. Qed.

Lemma lor_0xF0 (x : Z) : 0 <= x < 16 -> Z.lor 0xF0 x = 240 + x.
Proof. intros H. apply (lor_marker 15 x 4); lia. Qed.

(** The encodings, octet by octet, in terms of quotients and
    remainders. *)
Lemma utf8_encode_2 (c : Z) :
  0x80 <= c <= 0x7FF -> utf8_encode c = [192 + c / 64; 128 + c mod 64].
Proof.
  intros H. unfold utf8_encode.
  destruct (Z.ltb_spec c 0x80); [lia|].
  destruct (Z.ltb_spec c 0x800); [|lia].
  rewrite land_0x3F, shiftr_6.
  rewrite lor_0xC0, lor_0x80 by div_lia. reflexivity.
Qed.

Lemma utf8_encode_3 (c : Z) :
  0x800 <= c <= 0xFFFF ->
  utf8_encode c = [224 + c / 4096; 128 + (c / 64) mod 64; 128 + c mod 64].
Proof.
  intros H. unfold utf8_encode.
  destruct (Z.ltb_spec c 0x80); [lia|].
  destruct (Z.ltb_spec c 0x800); [lia|].
  destruct (Z.ltb_spec c 0x10000); [|lia].
  rewrite !land_0x3F, shiftr_6, shiftr_12.
  rewrite lor_0xE0, !lor_0x80 by div_lia. reflexivity.
Qed.

Lemma utf8_encode_4 (c : Z) :
  0x10000 <= c <= 0x10FFFF ->
  utf8_encode c =
  [240 + c / 262144; 128 + (c / 4096) mod 64; 128 + (c / 64) mod 64;
   128 + c mod 64].
Proof.
  intros H. unfold utf8_encode.
  destruct (Z.ltb_spec c 0x80); [lia|].
  destruct (Z.ltb_spec c 0x800); [lia|].
  destruct (Z.ltb_spec c 0x10000); [lia|].
  rewrite !land_0x3F, shiftr_6, shiftr_12, shiftr_18.
  rewrite lor_0xF0, !lor_0x80 by div_lia. reflexivity.
Qed.

(** The value the decoder assembles from two, three and four octets,
    as a sum: the conversions to [uint32_t] do nothing and the payloads
    do not overlap. *)
Lemma retval_2 (a b : Z) :
  0 <= a < 32 -> 0 <= b < 64 ->
  Z.lor (uint32_t (Z.shiftl (uint32_t a) 6)) (uint32_t b) = a * 64 + b.
Proof.
  intros Ha Hb.
  rewrite (uint32_t_small a), (uint32_t_small b) by lia.
  rewrite shiftl_mul, uint32_t_small by lia.
  apply (lor_marker a b 6); lia.
Qed.

Lemma retval_3 (a b c : Z) :
  0 <= a < 16 -> 0 <= b < 64 -> 0 <= c < 64 ->
  Z.lor (Z.lor (uint32_t (Z.shiftl (uint32_t a) 12))
               (uint32_t (Z.shiftl (uint32_t b) 6)))
        (uint32_t c) = a * 4096 + b * 64 + c.
Proof.
  intros Ha Hb Hc.
  rewrite (uint32_t_small a), (uint32_t_small b), (uint32_t_small c) by lia.
  rewrite !shiftl_mul, !uint32_t_small by lia.
  rewrite (lor_marker a (b * 2 ^ 6) 12) by lia.
  replace (a * 2 ^ 12 + b * 2 ^ 6) with ((a * 64 + b) * 2 ^ 6) by lia.
  rewrite (lor_marker (a * 64 + b) c 6) by lia. lia.
Qed.

Lemma retval_4 (a b c d : Z) :
  0 <= a < 8 -> 0 <= b < 64 -> 0 <= c < 64 -> 0 <= d < 64 ->
  Z.lor (Z.lor (Z.lor (uint32_t (Z.shiftl (uint32_t a) 18))
                      (uint32_t (Z.shiftl (uint32_t b) 12)))
               (uint32_t (Z.shiftl (uint32_t c) 6)))
        (uint32_t d) = a * 262144 + b * 4096 + c * 64 + d.
Proof.
  intros Ha Hb Hc Hd.
  rewrite (uint32_t_small a), (uint32_t_small b), (uint32_t_small c),
    (uint32_t_small d) by lia.
  rewrite !shiftl_mul, !uint32_t_small by lia.
  rewrite (lor_marker a (b * 2 ^ 12) 18) by lia.
  replace (a * 2 ^ 18 + b * 2 ^ 12) with ((a * 64 + b) * 2 ^ 12) by lia.
  rewrite (lor_marker (a * 64 + b) (c * 2 ^ 6) 12) by lia.
  replace ((a * 64 + b) * 2 ^ 12 + c * 2 ^ 6)
    with ((a * 4096 + b * 64 + c) * 2 ^ 6) by lia.
  rewrite (lor_marker (a * 4096 + b * 64 + c) d 6) by lia. lia.
Qed.

Lemma holds_load (m : memory) (p : nat) (l : list Z) (i : nat) :
  holds m p l -> (i < length l)%nat -> 0 <= nth i l 0 < 256 ->
  load m (p + i) = nth i l 0.
Proof.
  intros H Hi Hr. rewrite load_uint8_t, (H i Hi).
  apply Z.mod_small. exact Hr.
Qed.

Section RoundTrip.

Variables (m : memory) (p : nat) (c : Z).
Hypothesis Hm : holds m p (utf8_encode c).

Lemma round_trip_2 :
  0x80 <= c <= 0x7FF -> FAudio_UTF8_CodePoint m p = (c, (p + 2)%nat).
Proof.
  intros Hc. rewrite utf8_encode_2 in Hm by exact Hc.
  pose proof (holds_load m p _ 0 Hm ltac:(cbn; lia)) as L0.
  pose proof (holds_load m p _ 1 Hm ltac:(cbn; lia)) as L1.
  cbn [nth] in L0, L1.
  specialize (L0 ltac:(div_lia)). specialize (L1 ltac:(div_lia)).
  rewrite Nat.add_0_r in L0. replace (p + 1)%nat with (S p) in L1 by lia.
  unfold FAudio_UTF8_CodePoint. cbv zeta.
  rewrite retval_2 by (rewrite ?L0, ?L1; div_lia).
  repeat match goal with
  | |- context [if ?b then _ else _] =>
      destruct b eqn:?; tests_to_Prop; try (exfalso; div_lia)
  end.
  f_equal; [div_lia | lia].
Qed.

Lemma round_trip_3 :
  0x800 <= c <= 0xFFFD ->
  ~ In c [0xD800; 0xDB7F; 0xDB80; 0xDBFF; 0xDC00; 0xDF80; 0xDFFF] ->
  FAudio_UTF8_CodePoint m p = (c, (p + 3)%nat).
Proof.
  intros Hc Hsur. rewrite utf8_encode_3 in Hm by lia.
  pose proof (holds_load m p _ 0 Hm ltac:(cbn; lia)) as L0.
  pose proof (holds_load m p _ 1 Hm ltac:(cbn; lia)) as L1.
  pose proof (holds_load m p _ 2 Hm ltac:(cbn; lia)) as L2.
  cbn [nth] in L0, L1, L2.
  specialize (L0 ltac:(div_lia)). specialize (L1 ltac:(div_lia)).
  specialize (L2 ltac:(div_lia)).
  rewrite Nat.add_0_r in L0. replace (p + 1)%nat with (S p) in L1 by lia.
  replace (p + 2)%nat with (S (S p)) in L2 by lia.
  unfold FAudio_UTF8_CodePoint. cbv zeta.
  rewrite retval_3 by (rewrite ?L0, ?L1, ?L2; div_lia).
  assert (Hval : (load m p - (128 + 64 + 32)) * 4096 +
                 (load m (S p) - 128) * 64 + (load m (S (S p)) - 128) = c)
    by (rewrite L0, L1, L2; div_lia).
  rewrite Hval.
  assert (Hcase : surrogate_case c = false).
  { destruct (surrogate_case c) eqn:E; [|reflexivity].
    exfalso. apply Hsur. apply surrogate_case_true. exact E. }
  rewrite Hcase.
  repeat match goal with
  | |- context [if ?b then _ else _] =>
      destruct b eqn:?; tests_to_Prop; try (exfalso; div_lia)
  end.
  f_equal. lia.
Qed.

Lemma round_trip_4 :
  0x10000 <= c <= 0x10FFFF -> FAudio_UTF8_CodePoint m p = (c, (p + 4)%nat).
Proof.
  intros Hc. rewrite utf8_encode_4 in Hm by lia.
  pose proof (holds_load m p _ 0 Hm ltac:(cbn; lia)) as L0.
  pose proof (holds_load m p _ 1 Hm ltac:(cbn; lia)) as L1.
  pose proof (holds_load m p _ 2 Hm ltac:(cbn; lia)) as L2.
  pose proof (holds_load m p _ 3 Hm ltac:(cbn; lia)) as L3.
  cbn [nth] in L0, L1, L2, L3.
  specialize (L0 ltac:(div_lia)). specialize (L1 ltac:(div_lia)).
  specialize (L2 ltac:(div_lia)). specialize (L3 ltac:(div_lia)).
  rewrite Nat.add_0_r in L0. replace (p + 1)%nat with (S p) in L1 by lia.
  replace (p + 2)%nat with (S (S p)) in L2 by lia.
  replace (p + 3)%nat with (S (S (S p))) in L3 by lia.
  unfold FAudio_UTF8_CodePoint. cbv zeta.
  rewrite retval_4 by (rewrite ?L0, ?L1, ?L2, ?L3; div_lia).
  assert (Hval : (load m p - (128 + 64 + 32 + 16)) * 262144 +
                 (load m (S p) - 128) * 4096 +
                 (load m (S (S p)) - 128) * 64 +
                 (load m (S (S (S p))) - 128) = c)
    by (rewrite L0, L1, L2, L3; div_lia).
  rewrite Hval.
  repeat match goal with
  | |- context [if ?b then _ else _] =>
      destruct b eqn:?; tests_to_Prop; try (exfalso; div_lia)
  end.
  f_equal. lia.
Qed.

End RoundTrip.

(** C6: the decoder, run on the shortest UTF-8 encoding of a scalar of
    0x80 .. 0x7FF, of 0x800 .. 0xFFFD less the seven surrogate code
    points, or of 0x10000 .. 0x10FFFF, returns the scalar and moves the
    cursor by the length of the encoding. *)
Theorem decoder_round_trip (m : memory) (p : nat) (c : Z) :
  multi_octet_scalar c ->
  holds m p (utf8_encode c) ->
  FAudio_UTF8_CodePoint m p = (c, (p + length (utf8_encode c))%nat).
Proof.
  intros [Hc | [[Hc Hsur] | Hc]] Hm.
  - rewrite (utf8_encode_2 c Hc). apply round_trip_2; assumption.
  - rewrite (utf8_encode_3 c) by lia. apply round_trip_3; assumption.
  - rewrite (utf8_encode_4 c Hc). apply round_trip_4; assumption.
Qed.

Lemma decoder_round_trip_witness :
  FAudio_UTF8_CodePoint (c_string [0x41; 0xE2; 0x82; 0xAC; 0x42]) 1 =
    (0x20AC, 4%nat).
Proof.
  refine (decoder_round_trip
            (c_string [0x41; 0xE2; 0x82; 0xAC; 0x42]) 1 0x20AC _ _).
  - right. left. split; [lia|]. cbn [In]. intuition discriminate.
  - intros i Hi. change (length (utf8_encode 0x20AC)) with 3%nat in Hi.
    destruct i as [|[|[|i]]]; try reflexivity. lia.
Defined.

(** ** The loop of the writer *)

(** The loop, unfolded by one turn. *)
Lemma while_loop_eq (m : memory) (s : state) :
  while_loop m s =
  if sizeof_uint16_t <=? len s then
    match loop_body m s with
    | Break s' => s'
    | Continue s' => while_loop m s'
    end
  else s.
Proof.
  funelim (while_loop m s);
    destruct (Z.leb_spec sizeof_uint16_t (len s)); try contradiction;
    try (exfalso; lia).
  - reflexivity.
  - rewrite Hbody. reflexivity.
  - rewrite Hbody. reflexivity.
Qed.

(** The rule of the [while] loop: an invariant [I] that the turns of the
    loop keep gives [Q] when the loop is left, at its test or at a
    [break]. *)
Lemma while_loop_rule (m : memory) (I Q : state -> Prop) :
  (forall s, I s -> len s < sizeof_uint16_t -> Q s) ->
  (forall s s', I s -> sizeof_uint16_t <= len s ->
     loop_body m s = Break s' -> Q s') ->
  (forall s s', I s -> sizeof_uint16_t <= len s ->
     loop_body m s = Continue s' -> I s') ->
  forall s, I s -> Q (while_loop m s).
Proof.
  intros Hexit Hbreak Hturn s. revert I Q Hexit Hbreak Hturn.
  funelim (while_loop m s); intros I Q Hexit Hbreak Hturn HI.
  - apply Hexit; [exact HI | lia].
  - exact (Hbreak s s' HI Hlen Hbody).
  - match goal with
    | IH : forall I Q : state -> Prop, _ |- _ =>
        apply (IH I Q Hexit Hbreak Hturn)
    end.
    exact (Hturn s s' HI Hlen Hbody).
Qed.

Lemma while_loop_exit (m : memory) (s : state) :
  len s < sizeof_uint16_t -> while_loop m s = s.
Proof.
  intros H. rewrite while_loop_eq.
  destruct (Z.leb_spec sizeof_uint16_t (len s)); [lia | reflexivity].
Qed.

Lemma while_loop_Break (m : memory) (s s' : state) :
  sizeof_uint16_t <= len s -> loop_body m s = Break s' ->
  while_loop m s = s'.
Proof.
  intros H Hbody. rewrite while_loop_eq, Hbody.
  destruct (Z.leb_spec sizeof_uint16_t (len s)); [reflexivity | lia].
Qed.

Lemma while_loop_Continue (m : memory) (s s' : state) :
  sizeof_uint16_t <= len s -> loop_body m s = Continue s' ->
  while_loop m s = while_loop m s'.
Proof.
  intros H Hbody. rewrite while_loop_eq, Hbody.
  destruct (Z.leb_spec sizeof_uint16_t (len s)); [reflexivity | lia].
Qed.

(** What a turn of the loop does to the cursor and to the ghost field,
    however it ends. *)
Lemma loop_body_src (m : memory) (s : state) :
  src (after (loop_body m s)) = snd (FAudio_UTF8_CodePoint m (src s)) /\
  calls (after (loop_body m s)) = calls s ++ [src s].
Proof.
  unfold loop_body, decode.
  destruct (FAudio_UTF8_CodePoint m (src s)) as [cp p'].
  destruct (cp =? 0); [cbn; auto|].
  destruct (_ >? 0xFFFF); [destruct (_ <? _)|]; cbn; auto.
Qed.

(** A turn that ends at a [break] stores nothing. *)
Lemma loop_body_Break (m : memory) (s s' : state) :
  loop_body m s = Break s' -> dst s' = dst s /\ len s' = len s.
Proof.
  intros Hbody.
  assert (Hs' : s' = after (loop_body m s)) by (rewrite Hbody; reflexivity).
  revert Hbody. subst s'. unfold loop_body, decode.
  destruct (FAudio_UTF8_CodePoint m (src s)) as [cp p'].
  destruct (cp =? 0); [intros _; cbn; auto|].
  destruct (_ >? 0xFFFF); [|discriminate].
  destruct (_ <? _); [intros _; cbn; auto | discriminate].
Qed.

(** A turn that does not has decoded a value other than 0, and has
    stored one unit and taken 2 off the budget, or two units and 4. *)
Lemma loop_body_Continue (m : memory) (s s' : state) :
  sizeof_uint16_t <= len s < 2 ^ 64 ->
  loop_body m s = Continue s' ->
  (exists u, dst s' = dst s ++ [u] /\ len s' = len s - 2) \/
  (exists u v, dst s' = dst s ++ [u; v] /\ len s' = len s - 4 /\
               4 <= len s).
Proof.
  intros Hlen Hbody.
  assert (Hs' : s' = after (loop_body m s)) by (rewrite Hbody; reflexivity).
  revert Hbody. subst s'. unfold loop_body, decode, sizeof_uint16_t in *.
  destruct (FAudio_UTF8_CodePoint m (src s)) as [cp p'].
  destruct (cp =? 0); [discriminate|].
  destruct (_ >? 0xFFFF); cbn [len].
  - destruct (Z.ltb_spec (len s) (2 * 2)); [discriminate|]. intros _.
    cbn [after shrink store src dst len calls snd]. right.
    unfold sizeof_uint16_t.
    rewrite (size_t_sub_small (len s)) by lia.
    rewrite size_t_sub_small by lia.
    rewrite <- app_assoc. cbn [app]. eexists _, _.
    split; [reflexivity|]. lia.
  - intros _. cbn [after shrink store src dst len calls snd]. left.
    unfold sizeof_uint16_t. rewrite size_t_sub_small by lia.
    eexists. split; reflexivity.
Qed.

Lemma loop_body_Continue_not_0 (m : memory) (s s' : state) :
  loop_body m s = Continue s' -> load m (src s) <> 0.
Proof.
  intros Hbody Hload. revert Hbody. unfold loop_body, decode.
  rewrite (decoder_at_terminator m (src s) Hload). discriminate.
Qed.

(** C1, as the code has it: the last unit stored is always 0, and with a
    capacity of at least [sizeof (uint16_t)] bytes no unit is stored
    beyond the capacity. *)
Theorem transcode_terminated_within_capacity (m : memory) (n : Z) :
  let units := dst (FAudio_UTF8_To_UTF16 m n) in
  last units 1 = 0 /\
  (sizeof_uint16_t <= n -> 2 * Z.of_nat (length units) <= n).
Proof.
  cbv zeta. unfold FAudio_UTF8_To_UTF16. cbn [store dst].
  change (uint16_t 0) with 0. split; [apply last_last|].
  unfold sizeof_uint16_t. intros Hn.
  rewrite length_app. cbn [length].
  set (n' := size_t (n - 2)).
  assert (Hn' : 0 <= n' <= n - 2).
  { subst n'. pose proof (size_t_range (n - 2)).
    split; [lia|]. unfold size_t. apply Z.mod_le; lia. }
  change (initial n) with (State 0 [] n' []).
  cut (0 <= len (while_loop m (State 0 [] n' [])) /\
       2 * Z.of_nat (length (dst (while_loop m (State 0 [] n' [])))) +
       len (while_loop m (State 0 [] n' [])) = n'); [lia|].
  apply (while_loop_rule m
    (fun s => 0 <= len s < 2 ^ 64 /\
              2 * Z.of_nat (length (dst s)) + len s = n')
    (fun s => 0 <= len s /\ 2 * Z.of_nat (length (dst s)) + len s = n')).
  - intros s [H1 H2] _. split; [lia | exact H2].
  - intros s s' [H1 H2] Hlen Hbody.
    apply loop_body_Break in Hbody. destruct Hbody as [-> ->].
    split; [lia | exact H2].
  - intros s s' [H1 H2] Hlen Hbody.
    apply loop_body_Continue in Hbody; [|lia].
    destruct Hbody as [(u & -> & ->) | (u & v & -> & -> & H4)];
      rewrite length_app; cbn [length]; unfold sizeof_uint16_t in *; lia.
  - cbn [len dst length]. subst n'. pose proof (size_t_range (n - 2)). lia.
Qed.

Lemma transcode_terminated_within_capacity_witness :
  let units := dst (FAudio_UTF8_To_UTF16 (c_string [0x41; 0x42]) 4) in
  last units 1 = 0 /\ 2 * Z.of_nat (length units) <= 4.
Proof.
  cbv zeta.
  pose proof (transcode_terminated_within_capacity (c_string [0x41; 0x42]) 4)
    as H.
  split; [exact (proj1 H) | apply (proj2 H)].
  cbv. discriminate.
Defined.

(** ** One turn of the loop, by the value decoded *)

Lemma high_surrogate_range (c : Z) : 0xD800 <= high_surrogate c <= 0xDBFF.
Proof. unfold high_surrogate. rewrite land_0x3FF. div_lia. Qed.

Lemma low_surrogate_range (c : Z) : 0xDC00 <= low_surrogate c <= 0xDFFF.
Proof. unfold low_surrogate. rewrite land_0x3FF. div_lia. Qed.

Section Turn.

Variables (m : memory) (s : state) (cp : Z) (p' : nat).
Hypothesis Hcp : FAudio_UTF8_CodePoint m (src s) = (cp, p').

(** The state behind the call of the decoder. *)
Let decoded : state := State p' (dst s) (len s) (calls s ++ [src s]).

Lemma turn_end_of_string : cp = 0 -> loop_body m s = Break decoded.
Proof.
  intros ->. unfold loop_body, decode. rewrite Hcp. reflexivity.
Qed.

Lemma turn_bogus :
  cp = UNICODE_BOGUS_CHAR_VALUE ->
  loop_body m s =
  Continue (shrink (store UNICODE_BOGUS_CHAR_CODEPOINT decoded)).
Proof.
  intros ->. unfold loop_body, decode. rewrite Hcp. reflexivity.
Qed.

Lemma turn_one_unit :
  cp <> 0 -> cp <> UNICODE_BOGUS_CHAR_VALUE -> cp <= 0xFFFF ->
  loop_body m s = Continue (shrink (store cp decoded)).
Proof.
  intros H0 Hb Hle. unfold loop_body, decode. rewrite Hcp.
  destruct (Z.eqb_spec cp 0); [contradiction|].
  destruct (Z.eqb_spec cp UNICODE_BOGUS_CHAR_VALUE); [contradiction|].
  rewrite Z.gtb_ltb. destruct (Z.ltb_spec 0xFFFF cp); [lia|]. reflexivity.
Qed.

Lemma turn_pair :
  cp <> UNICODE_BOGUS_CHAR_VALUE -> 0xFFFF < cp ->
  sizeof_uint16_t * 2 <= len s ->
  loop_body m s =
  Continue (shrink (store (low_surrogate cp)
             (shrink (store (high_surrogate cp) decoded)))).
Proof.
  intros Hb Hgt Hlen. pose proof (decoder_value_range _ _ _ _ Hcp Hb).
  unfold loop_body, decode. rewrite Hcp.
  destruct (Z.eqb_spec cp 0); [lia|].
  destruct (Z.eqb_spec cp UNICODE_BOGUS_CHAR_VALUE); [contradiction|].
  rewrite Z.gtb_ltb. destruct (Z.ltb_spec 0xFFFF cp); [|lia].
  cbn [len]. destruct (Z.ltb_spec (len s) (sizeof_uint16_t * 2)); [lia|].
  pose proof (high_surrogate_range cp). pose proof (low_surrogate_range cp).
  rewrite (uint32_t_small (cp - 0x10000)) by lia.
  fold (high_surrogate cp). fold (low_surrogate cp).
  rewrite !uint32_t_small by lia. reflexivity.
Qed.

Lemma turn_no_room :
  cp <> UNICODE_BOGUS_CHAR_VALUE -> 0xFFFF < cp ->
  len s < sizeof_uint16_t * 2 ->
  loop_body m s = Break decoded.
Proof.
  intros Hb Hgt Hlen. unfold loop_body, decode. rewrite Hcp.
  destruct (Z.eqb_spec cp 0); [lia|].
  destruct (Z.eqb_spec cp UNICODE_BOGUS_CHAR_VALUE); [contradiction|].
  rewrite Z.gtb_ltb. destruct (Z.ltb_spec 0xFFFF cp); [|lia].
  cbn [len]. destruct (Z.ltb_spec (len s) (sizeof_uint16_t * 2)); [|lia].
  reflexivity.
Qed.

End Turn.

Lemma dst_store (v : Z) (s : state) :
  0 <= v < 2 ^ 16 -> dst (store v s) = dst s ++ [v].
Proof.
  intros H. cbn [store dst]. rewrite uint16_t_small by exact H. reflexivity.
Qed.

Lemma dst_shrink (s : state) : dst (shrink s) = dst s.
Proof. reflexivity. Qed.

Lemma len_store (v : Z) (s : state) : len (store v s) = len s.
Proof. reflexivity. Qed.

Lemma len_shrink (s : state) :
  sizeof_uint16_t <= len s < 2 ^ 64 ->
  len (shrink s) = len s - sizeof_uint16_t.
Proof.
  intros H. cbn [shrink len].
  apply size_t_sub_small; unfold sizeof_uint16_t in *; lia.
Qed.

(** ** Surrogate pairs *)

(** C7: in a turn of the loop that decodes a scalar above 0xFFFF, with a
    budget of two units or more the two units stored are the high and
    the low surrogate of the scalar; with less, the loop ends and
    nothing more is stored.  The scalar 0x10000 (F0 90 80 80) comes out
    as 0xD800, 0xDC00. *)
Theorem surrogate_pair_whole_or_none
    (m : memory) (s : state) (cp : Z) (p' : nat) :
  FAudio_UTF8_CodePoint m (src s) = (cp, p') ->
  cp <> UNICODE_BOGUS_CHAR_VALUE -> 0xFFFF < cp ->
  (sizeof_uint16_t * 2 <= len s < 2 ^ 64 ->
   exists s', loop_body m s = Continue s' /\
     dst s' = dst s ++ [0xD800 + Z.land (Z.shiftr (cp - 0x10000) 10) 0x3FF;
                        0xDC00 + Z.land (cp - 0x10000) 0x3FF] /\
     len s' = len s - sizeof_uint16_t * 2) /\
  (len s < sizeof_uint16_t * 2 -> dst (while_loop m s) = dst s) /\
  dst (FAudio_UTF8_To_UTF16 (c_string [0xF0; 0x90; 0x80; 0x80]) 6) =
    [0xD800; 0xDC00; 0].
Proof.
  intros Hcp Hb Hgt. split; [|split].
  - intros Hlen. eexists. split; [apply (turn_pair m s cp p' Hcp Hb Hgt); lia|].
    pose proof (high_surrogate_range cp). pose proof (low_surrogate_range cp).
    unfold sizeof_uint16_t in *. split.
    + rewrite dst_shrink, dst_store, dst_shrink, dst_store by lia.
      cbn [dst]. rewrite <- app_assoc. reflexivity.
    + rewrite len_shrink; rewrite len_store, len_shrink; cbn [len store];
        unfold sizeof_uint16_t; lia.
  - intros Hlen. destruct (Z_lt_dec (len s) sizeof_uint16_t) as [Hlt|Hge].
    + rewrite while_loop_exit by exact Hlt. reflexivity.
    + rewrite (while_loop_Break m s _ ltac:(lia)
                 (turn_no_room m s cp p' Hcp Hb Hgt Hlen)).
      reflexivity.
  - vm_compute. reflexivity.
Qed.

Lemma surrogate_pair_whole_or_none_witness :
  let m := c_string [0xF0; 0x9F; 0x98; 0x80] in
  exists s', loop_body m (State 0 [] 4 []) = Continue s' /\
     dst s' = [0xD83D; 0xDE00] /\ len s' = 0.
Proof.
  cbv zeta.
  refine (proj1 (surrogate_pair_whole_or_none
    (c_string [0xF0; 0x9F; 0x98; 0x80]) (State 0 [] 4 []) 0x1F600 4%nat
    _ _ _) _).
  - vm_compute. reflexivity.
  - vm_compute. discriminate.
  - reflexivity.
  - vm_compute. split; [discriminate | reflexivity].
Defined.

(** ** Small capacities *)

(** The empty string is stored as the terminator alone, whatever the
    capacity. *)
Lemma transcode_empty (m : memory) (n : Z) :
  load m 0 = 0 -> dst (FAudio_UTF8_To_UTF16 m n) = [0].
Proof.
  intros Hload. unfold FAudio_UTF8_To_UTF16.
  destruct (Z_lt_dec (len (initial n)) sizeof_uint16_t) as [Hlt|Hge].
  - rewrite while_loop_exit by exact Hlt. reflexivity.
  - rewrite (while_loop_Break m (initial n) _ ltac:(lia)
               (turn_end_of_string m (initial n) 0 0%nat
                  (decoder_at_terminator m 0 Hload) eq_refl)).
    reflexivity.
Qed.

(** C2, as the code has it: with a capacity of [2 * sizeof (uint16_t)]
    bytes and a source that is not empty, the units stored are one unit
    of content and the terminator, the unit being the first scalar of
    the source, or '?' where the decoder returns the bogus value; they
    are the terminator alone where the first scalar is above 0xFFFF. *)
Theorem transcode_capacity_two_units (m : memory) :
  non_empty m ->
  let cp := fst (FAudio_UTF8_CodePoint m 0) in
  dst (FAudio_UTF8_To_UTF16 m (2 * sizeof_uint16_t)) =
    if cp =? UNICODE_BOGUS_CHAR_VALUE then [UNICODE_BOGUS_CHAR_CODEPOINT; 0]
    else if 0xFFFF <? cp then [0]
    else [cp; 0].
Proof.
  intros Hne. cbv zeta. unfold FAudio_UTF8_To_UTF16.
  change (initial (2 * sizeof_uint16_t)) with (State 0 [] 2 []).
  destruct (FAudio_UTF8_CodePoint m 0) as [cp p'] eqn:Hcp. cbn [fst].
  assert (H0 : cp <> 0).
  { intros ->. apply Hne. apply decoder_zero_iff. rewrite Hcp. reflexivity. }
  assert (Hin : sizeof_uint16_t <= len (State 0 [] 2 []))
    by (cbv; discriminate).
  assert (Hroom : len (State 0 [] 2 []) < sizeof_uint16_t * 2)
    by reflexivity.
  destruct (Z.eqb_spec cp UNICODE_BOGUS_CHAR_VALUE) as [Hb|Hb].
  - rewrite (while_loop_Continue m _ _ Hin
               (turn_bogus m (State 0 [] 2 []) cp p' Hcp Hb)).
    rewrite while_loop_exit by (vm_compute; reflexivity). reflexivity.
  - pose proof (decoder_value_range _ _ _ _ Hcp Hb) as Hr.
    destruct (Z.ltb_spec 0xFFFF cp) as [Hgt|Hle].
    + rewrite (while_loop_Break m _ _ Hin
                 (turn_no_room m (State 0 [] 2 []) cp p' Hcp Hb Hgt Hroom)).
      reflexivity.
    + rewrite (while_loop_Continue m _ _ Hin
                 (turn_one_unit m (State 0 [] 2 []) cp p' Hcp H0 Hb Hle)).
      rewrite while_loop_exit by (vm_compute; reflexivity).
      cbn [store shrink dst app]. rewrite uint16_t_small by lia. reflexivity.
Qed.

Lemma transcode_capacity_two_units_witness :
  dst (FAudio_UTF8_To_UTF16 (c_string [0xC3; 0xA9; 0x74; 0xC3; 0xA9])
         (2 * sizeof_uint16_t)) = [0xE9; 0].
Proof.
  refine (transcode_capacity_two_units
            (c_string [0xC3; 0xA9; 0x74; 0xC3; 0xA9]) _).
  vm_compute. discriminate.
Defined.

(** C3, as the code has it: where the first scalar of the source is
    above 0xFFFF, a capacity of [3 * sizeof (uint16_t)] bytes takes the
    whole surrogate pair and the terminator, and a capacity of
    [2 * sizeof (uint16_t)] bytes the terminator alone: a high surrogate
    is never stored without its low surrogate. *)
Theorem transcode_pair_capacity (m : memory) (cp : Z) :
  fst (FAudio_UTF8_CodePoint m 0) = cp ->
  cp <> UNICODE_BOGUS_CHAR_VALUE -> 0xFFFF < cp ->
  dst (FAudio_UTF8_To_UTF16 m (3 * sizeof_uint16_t)) =
    [high_surrogate cp; low_surrogate cp; 0] /\
  dst (FAudio_UTF8_To_UTF16 m (2 * sizeof_uint16_t)) = [0].
Proof.
  intros Hfst Hb Hgt.
  destruct (FAudio_UTF8_CodePoint m 0) as [cp' p'] eqn:Hcp.
  cbn [fst] in Hfst. subst cp'.
  pose proof (high_surrogate_range cp). pose proof (low_surrogate_range cp).
  split; unfold FAudio_UTF8_To_UTF16.
  - change (initial (3 * sizeof_uint16_t)) with (State 0 [] 4 []).
    assert (Hin : sizeof_uint16_t <= len (State 0 [] 4 []))
      by (cbv; discriminate).
    assert (Hroom : sizeof_uint16_t * 2 <= len (State 0 [] 4 []))
      by (cbv; discriminate).
    rewrite (while_loop_Continue m _ _ Hin
               (turn_pair m (State 0 [] 4 []) cp p' Hcp Hb Hgt Hroom)).
    rewrite while_loop_exit by (vm_compute; reflexivity).
    cbn [store shrink dst app].
    rewrite !uint16_t_small by lia. reflexivity.
  - change (initial (2 * sizeof_uint16_t)) with (State 0 [] 2 []).
    assert (Hin : sizeof_uint16_t <= len (State 0 [] 2 []))
      by (cbv; discriminate).
    assert (Hroom : len (State 0 [] 2 []) < sizeof_uint16_t * 2)
      by reflexivity.
    rewrite (while_loop_Break m _ _ Hin
               (turn_no_room m (State 0 [] 2 []) cp p' Hcp Hb Hgt Hroom)).
    reflexivity.
Qed.

Lemma transcode_pair_capacity_witness :
  let m := c_string [0xF0; 0x9F; 0x98; 0x80; 0x21] in
  dst (FAudio_UTF8_To_UTF16 m (3 * sizeof_uint16_t)) = [0xD83D; 0xDE00; 0] /\
  dst (FAudio_UTF8_To_UTF16 m (2 * sizeof_uint16_t)) = [0].
Proof.
  cbv zeta.
  refine (transcode_pair_capacity
            (c_string [0xF0; 0x9F; 0x98; 0x80; 0x21]) 0x1F600 _ _ _).
  - vm_compute. reflexivity.
  - vm_compute. discriminate.
  - reflexivity.
Defined.

(** The claim C2 fails: with a capacity of [2 * sizeof (uint16_t)] bytes
    the string "A" is stored as one unit of content and the
    terminator. *)
Lemma transcode_capacity_two_units_stores_one :
  dst (FAudio_UTF8_To_UTF16 (c_string [0x41]) (2 * sizeof_uint16_t)) =
    [0x41; 0] /\
  dst (FAudio_UTF8_To_UTF16 (c_string [0x41]) (2 * sizeof_uint16_t)) <> [0].
Proof.
  assert (H : dst (FAudio_UTF8_To_UTF16 (c_string [0x41])
                     (2 * sizeof_uint16_t)) = [0x41; 0])
    by (vm_compute; reflexivity).
  rewrite H. split; [reflexivity | discriminate].
Qed.

(** The claim C3 fails: with a capacity of [3 * sizeof (uint16_t)] bytes
    the scalar 0x10000 is stored as its surrogate pair and the
    terminator. *)
Lemma transcode_capacity_three_units_stores_pair :
  fst (FAudio_UTF8_CodePoint (c_string [0xF0; 0x90; 0x80; 0x80]) 0) = 0x10000 /\
  dst (FAudio_UTF8_To_UTF16 (c_string [0xF0; 0x90; 0x80; 0x80])
         (3 * sizeof_uint16_t)) = [0xD800; 0xDC00; 0] /\
  dst (FAudio_UTF8_To_UTF16 (c_string [0xF0; 0x90; 0x80; 0x80])
         (3 * sizeof_uint16_t)) <> [0].
Proof.
  assert (H : dst (FAudio_UTF8_To_UTF16 (c_string [0xF0; 0x90; 0x80; 0x80])
                     (3 * sizeof_uint16_t)) = [0xD800; 0xDC00; 0])
    by (vm_compute; reflexivity).
  rewrite H. split; [vm_compute; reflexivity|].
  split; [reflexivity | discriminate].
Qed.


(** ** Runs on given strings *)

(** One turn of the loop on a given memory and state: the test of the
    loop and the body are evaluated, the rest of the loop is kept. *)
Ltac turn :=
  rewrite while_loop_eq;
  match goal with
  | |- context [sizeof_uint16_t <=? len ?s] =>
      let b := eval vm_compute in (sizeof_uint16_t <=? len s) in
      replace (sizeof_uint16_t <=? len s) with b by (vm_compute; reflexivity)
  end;
  cbv iota;
  try match goal with
  | |- context [loop_body ?m ?s] =>
      let f := eval vm_compute in (loop_body m s) in
      replace (loop_body m s) with f by (vm_compute; reflexivity)
  end;
  cbv iota.

(** Enters the loop of a call on a given memory and capacity. *)
Ltac enter :=
  unfold FAudio_UTF8_To_UTF16;
  match goal with
  | |- context [initial ?n] =>
      let s := eval vm_compute in (initial n) in
      replace (initial n) with s by (vm_compute; reflexivity)
  end.

(** The claim C1 fails for a capacity below [sizeof (uint16_t)]: with
    [len = 1] the budget wraps around to [2^64 - 1], and "AB" is stored
    whole, three units into one byte. *)
Lemma transcode_capacity_1_overflows :
  let units := dst (FAudio_UTF8_To_UTF16 (c_string [0x41; 0x42]) 1) in
  len (initial 1) = 2 ^ 64 - 1 /\
  units = [0x41; 0x42; 0] /\ ~ 2 * Z.of_nat (length units) <= 1.
Proof.
  cbv zeta. split; [vm_compute; reflexivity|].
  assert (H : dst (FAudio_UTF8_To_UTF16 (c_string [0x41; 0x42]) 1) =
              [0x41; 0x42; 0]).
  { enter. turn. turn. turn. reflexivity. }
  rewrite H. split; [reflexivity | cbn [length]; lia].
Qed.

(** ** Six octet sequences and the end of the string *)

Lemma NUL_six_then_A : NUL six_then_A 6.
Proof.
  split; [reflexivity|]. intros i Hi.
  do 6 (destruct i as [|i]; [vm_compute; discriminate|]). lia.
Qed.

Lemma NUL_six_then_As : NUL six_then_As 6.
Proof.
  split; [reflexivity|]. intros i Hi.
  do 6 (destruct i as [|i]; [vm_compute; discriminate|]). lia.
Qed.

(** On a string of six octets and its terminator the code calls the
    decoder ten times, where C9 has one call for each octet of the
    source at most: the whole six octet sequence takes the cursor over
    the terminator, and the loop goes on in what lies behind the
    string. *)
Theorem six_octets_more_calls_than_octets :
  NUL six_then_As 6 /\
  calls (FAudio_UTF8_To_UTF16 six_then_As 64) =
    [0; 7; 8; 9; 10; 11; 12; 13; 14; 15]%nat /\
  (6 + 1 < length (calls (FAudio_UTF8_To_UTF16 six_then_As 64)))%nat.
Proof.
  split; [exact NUL_six_then_As|].
  assert (H : calls (FAudio_UTF8_To_UTF16 six_then_As 64) =
              [0; 7; 8; 9; 10; 11; 12; 13; 14; 15]%nat)
    by (vm_compute; reflexivity).
  rewrite H. split; [reflexivity | cbn [length]; lia].
Qed.

(** With the terminator at offset 6 the code calls the decoder at
    offset 7 and stores the octet it reads there, where C10 has no read
    behind the terminator. *)
Theorem six_octets_read_behind_terminator :
  NUL six_then_A 6 /\
  calls (FAudio_UTF8_To_UTF16 six_then_A 6) = [0; 7]%nat /\
  dst (FAudio_UTF8_To_UTF16 six_then_A 6) =
    [UNICODE_BOGUS_CHAR_CODEPOINT; 0x41; 0].
Proof.
  split; [exact NUL_six_then_A|].
  split; vm_compute; reflexivity.
Qed.

(** A string without an octet from 0xFC on has no six octet sequence. *)
Lemma below_0xFC_not_six (m : memory) (n p : nat) :
  NUL m n -> below_0xFC m n -> (p <= n)%nat -> ~ six_octets m p.
Proof.
  intros [Hn _] Hlow Hp [Hlead _].
  destruct (Nat.eq_dec p n) as [->|Hne].
  - rewrite load_uint8_t, Hn in Hlead. lia.
  - specialize (Hlow p ltac:(lia)). lia.
Qed.

(** On such a string the loop does what C9 and C10 say: the decoder is
    called within the string only, the terminator included, and once
    for each octet at most. *)
Lemma transcode_within_string (m : memory) (n : nat) (cap : Z) :
  NUL m n -> below_0xFC m n ->
  Forall (fun p => (p <= n)%nat) (calls (FAudio_UTF8_To_UTF16 m cap)) /\
  (length (calls (FAudio_UTF8_To_UTF16 m cap)) <= n + 1)%nat.
Proof.
  intros HNUL Hlow. unfold FAudio_UTF8_To_UTF16. cbn [store calls].
  apply (while_loop_rule m
    (fun s => (src s <= n)%nat /\ (length (calls s) <= src s)%nat /\
              Forall (fun p => (p <= n)%nat) (calls s))
    (fun s => Forall (fun p => (p <= n)%nat) (calls s) /\
              (length (calls s) <= n + 1)%nat)).
  - intros s (H1 & H2 & H3) _. split; [exact H3 | lia].
  - intros s s' (H1 & H2 & H3) _ Hbody.
    destruct (loop_body_src m s) as [_ Hcalls].
    rewrite Hbody in Hcalls. cbn [after] in Hcalls. rewrite Hcalls.
    split.
    + apply Forall_app. split; [exact H3 | repeat constructor; exact H1].
    + rewrite length_app. cbn [length]. lia.
  - intros s s' (H1 & H2 & H3) _ Hbody.
    pose proof (loop_body_Continue_not_0 m s s' Hbody) as Hload.
    destruct (loop_body_src m s) as [Hsrc Hcalls].
    rewrite Hbody in Hsrc, Hcalls. cbn [after] in Hsrc, Hcalls.
    pose proof (decoder_progress m (src s) Hload).
    pose proof (decoder_within_string m n (src s) HNUL H1
                  (below_0xFC_not_six m n (src s) HNUL Hlow H1)).
    rewrite Hsrc, Hcalls. split; [lia|]. split.
    + rewrite length_app. cbn [length]. lia.
    + apply Forall_app. split; [exact H3 | repeat constructor; exact H1].
  - cbn. split; [lia|]. split; [lia | constructor].
Qed.

(** ** The decoder, branch by branch *)

(** An octet 01 .. 7F is returned as it is, and the cursor moves by
    one. *)
Lemma decoder_one_octet (m : memory) (p : nat) :
  1 <= load m p <= 127 ->
  FAudio_UTF8_CodePoint m p = (load m p, (p + 1)%nat).
Proof.
  intros H. decoder_paths; tests_to_Prop; try (exfalso; lia).
  f_equal. lia.
Qed.

(** A continuation octet where a sequence should start: the bogus
    value, and the cursor moves by one. *)
Lemma decoder_stray_continuation (m : memory) (p : nat) :
  0x80 <= load m p <= 0xBF ->
  FAudio_UTF8_CodePoint m p = (UNICODE_BOGUS_CHAR_VALUE, (p + 1)%nat).
Proof.
  intros H. decoder_paths; tests_to_Prop; try (exfalso; lia).
  f_equal. lia.
Qed.

(** A string in [c_string] is held there with its terminator. *)
Lemma c_string_holds (l : list Z) : holds_string (c_string l) 0 l.
Proof.
  intros i Hi. unfold c_string. cbn [Nat.add].
  rewrite length_app in Hi. cbn [length] in Hi.
  destruct (Nat.eq_dec i (length l)) as [->|Hne].
  - rewrite nth_overflow by lia. rewrite nth_middle. reflexivity.
  - rewrite app_nth1 by lia. reflexivity.
Qed.

Lemma c_string_NUL (l : list Z) :
  Forall (fun b => uint8_t b <> 0) l -> NUL (c_string l) (length l).
Proof.
  intros Hl. split.
  - unfold c_string. rewrite nth_overflow by lia. reflexivity.
  - intros i Hi. unfold c_string.
    rewrite Forall_forall in Hl. apply Hl. apply nth_In. exact Hi.
Qed.

(** Two octets: the payload, unless it is below 0x80 (an overlong
    form); the cursor moves by two in both cases. *)
Theorem decoder_two_octets (m : memory) (p : nat) :
  0xC0 <= load m p <= 0xDF -> continuation m (p + 1) ->
  FAudio_UTF8_CodePoint m p =
    (let v := payload_2 (load m p) (load m (p + 1)) in
     if 0x80 <=? v then v else UNICODE_BOGUS_CHAR_VALUE,
     (p + 2)%nat).
Proof.
  unfold continuation, payload_2. cbv zeta. intros Hlead Hc1.
  replace (p + 1)%nat with (S p) in * by lia.
  unfold FAudio_UTF8_CodePoint. cbv zeta.
  rewrite retval_2 by lia.
  repeat match goal with
  | |- context [if ?b then _ else _] =>
      destruct b eqn:?; tests_to_Prop; try (exfalso; lia)
  end; f_equal; lia.
Qed.

(** Three octets: the payload, if it is one of 0x800 .. 0xFFFD and none
    of the seven values of the [switch]; the cursor moves by three in
    all cases. *)
Theorem decoder_three_octets (m : memory) (p : nat) :
  0xE0 <= load m p <= 0xEF ->
  continuation m (p + 1) -> continuation m (p + 2) ->
  FAudio_UTF8_CodePoint m p =
    (let v := payload_3 (load m p) (load m (p + 1)) (load m (p + 2)) in
     if surrogate_case v then UNICODE_BOGUS_CHAR_VALUE
     else if (0x800 <=? v) && (v <=? 0xFFFD) then v
     else UNICODE_BOGUS_CHAR_VALUE,
     (p + 3)%nat).
Proof.
  unfold continuation, payload_3. cbv zeta. intros Hlead Hc1 Hc2.
  replace (p + 1)%nat with (S p) in * by lia.
  replace (p + 2)%nat with (S (S p)) in * by lia.
  unfold FAudio_UTF8_CodePoint. cbv zeta.
  rewrite retval_3 by lia.
  replace ((load m p - (128 + 64 + 32)) * 4096 + (load m (S p) - 128) * 64 +
           (load m (S (S p)) - 128))
    with ((load m p - 0xE0) * 4096 + (load m (S p) - 0x80) * 64 +
          (load m (S (S p)) - 0x80)) by lia.
  repeat match goal with
  | |- context [if ?b then _ else _] =>
      destruct b eqn:?; tests_to_Prop; try (exfalso; lia)
  end; f_equal; lia.
Qed.

(** Four octets: the payload, if it is one of 0x10000 .. 0x10FFFF; the
    cursor moves by four in both cases. *)
Theorem decoder_four_octets (m : memory) (p : nat) :
  0xF0 <= load m p <= 0xF7 ->
  continuation m (p + 1) -> continuation m (p + 2) ->
  continuation m (p + 3) ->
  FAudio_UTF8_CodePoint m p =
    (let v := payload_4 (load m p) (load m (p + 1)) (load m (p + 2))
                (load m (p + 3)) in
     if (0x10000 <=? v) && (v <=? 0x10FFFF) then v
     else UNICODE_BOGUS_CHAR_VALUE,
     (p + 4)%nat).
Proof.
  unfold continuation, payload_4. cbv zeta. intros Hlead Hc1 Hc2 Hc3.
  replace (p + 1)%nat with (S p) in * by lia.
  replace (p + 2)%nat with (S (S p)) in * by lia.
  replace (p + 3)%nat with (S (S (S p))) in * by lia.
  unfold FAudio_UTF8_CodePoint. cbv zeta.
  rewrite retval_4 by lia.
  repeat match goal with
  | |- context [if ?b then _ else _] =>
      destruct b eqn:?; tests_to_Prop; try (exfalso; lia)
  end; f_equal; lia.
Qed.

(** A leading octet from 0xC0 on, one of whose announced continuation
    octets has not the format 10xxxxxx: the bogus value, and the cursor
    behind the leading octet only, whatever was read after it. *)
Theorem decoder_malformed (m : memory) (p i : nat) :
  0xC0 <= load m p ->
  (1 <= i < sequence_length (load m p))%nat -> ~ continuation m (p + i) ->
  FAudio_UTF8_CodePoint m p = (UNICODE_BOGUS_CHAR_VALUE, (p + 1)%nat).
Proof.
  unfold continuation, sequence_length. intros Hlead Hi Hn.
  pose proof (load_range m p). revert Hi.
  decoder_paths; tests_to_Prop; offsets p; intros Hi;
    try reflexivity; try (exfalso; lia); exfalso.
  all: assert (Hcases : (i = 1 \/ i = 2 \/ i = 3 \/ i = 4 \/ i = 5)%nat)
    by lia.
  all: destruct Hcases as [-> | [-> | [-> | [-> | ->]]]];
    try (apply Hn; lia); lia.
Qed.

Lemma decoder_two_octets_witness :
  FAudio_UTF8_CodePoint (c_string [0xC1; 0x81]) 0 =
    (UNICODE_BOGUS_CHAR_VALUE, 2%nat) /\
  FAudio_UTF8_CodePoint (c_string [0xC3; 0xA9]) 0 = (0xE9, 2%nat).
Proof.
  split.
  - refine (decoder_two_octets (c_string [0xC1; 0x81]) 0 _ _);
      vm_compute; split; first [discriminate | reflexivity].
  - refine (decoder_two_octets (c_string [0xC3; 0xA9]) 0 _ _);
      vm_compute; split; first [discriminate | reflexivity].
Defined.

Lemma decoder_three_octets_witness :
  FAudio_UTF8_CodePoint (c_string [0xE0; 0x80; 0xAF]) 0 =
    (UNICODE_BOGUS_CHAR_VALUE, 3%nat) /\
  FAudio_UTF8_CodePoint (c_string [0xEF; 0xBF; 0xBF]) 0 =
    (UNICODE_BOGUS_CHAR_VALUE, 3%nat) /\
  FAudio_UTF8_CodePoint (c_string [0xE2; 0x82; 0xAC]) 0 = (0x20AC, 3%nat).
Proof.
  split; [|split].
  - refine (decoder_three_octets (c_string [0xE0; 0x80; 0xAF]) 0 _ _ _);
      vm_compute; split; first [discriminate | reflexivity].
  - refine (decoder_three_octets (c_string [0xEF; 0xBF; 0xBF]) 0 _ _ _);
      vm_compute; split; first [discriminate | reflexivity].
  - refine (decoder_three_octets (c_string [0xE2; 0x82; 0xAC]) 0 _ _ _);
      vm_compute; split; first [discriminate | reflexivity].
Defined.

Lemma decoder_four_octets_witness :
  FAudio_UTF8_CodePoint (c_string [0xF4; 0x90; 0x80; 0x80]) 0 =
    (UNICODE_BOGUS_CHAR_VALUE, 4%nat) /\
  FAudio_UTF8_CodePoint (c_string [0xF0; 0x9F; 0x98; 0x80]) 0 =
    (0x1F600, 4%nat).
Proof.
  split.
  - refine (decoder_four_octets (c_string [0xF4; 0x90; 0x80; 0x80]) 0
              _ _ _ _); vm_compute; split; first [discriminate | reflexivity].
  - refine (decoder_four_octets (c_string [0xF0; 0x9F; 0x98; 0x80]) 0
              _ _ _ _); vm_compute; split; first [discriminate | reflexivity].
Defined.

Lemma decoder_malformed_witness :
  FAudio_UTF8_CodePoint (c_string [0xE2; 0x82; 0x41]) 0 =
    (UNICODE_BOGUS_CHAR_VALUE, 1%nat).
Proof.
  refine (decoder_malformed (c_string [0xE2; 0x82; 0x41]) 0 2 _ _ _).
  - vm_compute. discriminate.
  - vm_compute. lia.
  - intros [H _]. apply H. reflexivity.
Defined.

Lemma decoder_five_octets_witness :
  FAudio_UTF8_CodePoint (c_string [0xF8; 0x88; 0x80; 0x80; 0x80]) 0 =
    (UNICODE_BOGUS_CHAR_VALUE, 5%nat).
Proof.
  refine (decoder_five_octets (c_string [0xF8; 0x88; 0x80; 0x80; 0x80]) 0 _).
  vm_compute. repeat split; first [discriminate | reflexivity].
Defined.

Lemma decoder_six_octets_witness :
  FAudio_UTF8_CodePoint
    (c_string [0xFD; 0xBF; 0xBF; 0xBF; 0xBF; 0xBF; 0x41]) 0 =
    (UNICODE_BOGUS_CHAR_VALUE, 7%nat).
Proof.
  refine (decoder_six_octets
            (c_string [0xFD; 0xBF; 0xBF; 0xBF; 0xBF; 0xBF; 0x41]) 0 _).
  vm_compute. repeat split; first [discriminate | reflexivity].
Defined.

(** The decoder accepts the shortest form only: a value it returns,
    other than 0 and the bogus value, has the octets the cursor has
    moved over as its UTF-8 encoding. *)
Theorem decoder_accepts_shortest_form
    (m : memory) (p : nat) (c : Z) (p' : nat) :
  FAudio_UTF8_CodePoint m p = (c, p') ->
  c <> 0 -> c <> UNICODE_BOGUS_CHAR_VALUE ->
  p' = (p + length (utf8_encode c))%nat /\
  forall i, (i < length (utf8_encode c))%nat ->
    load m (p + i) = nth i (utf8_encode c) 0.
Proof.
  intros H Hz Hb. pose proof (load_range m p).
  assert (Hc : c = fst (FAudio_UTF8_CodePoint m p))
    by (rewrite H; reflexivity).
  assert (Hp : p' = snd (FAudio_UTF8_CodePoint m p))
    by (rewrite H; reflexivity).
  clear H. subst p'. revert Hc.
  decoder_paths; cbn [fst snd]; tests_to_Prop; intros Hc;
    try congruence.
  - (* one octet *)
    subst c. unfold utf8_encode.
    destruct (Z.ltb_spec (load m p) 0x80); [|lia]. cbn [length].
    split; [lia|]. intros [|i] Hi; [|lia].
    rewrite Nat.add_0_r. reflexivity.
  - (* two octets *)
    rewrite retval_2 in * by lia. subst c.
    rewrite utf8_encode_2 by lia. cbn [length].
    split; [lia|]. intros [|[|i]] Hi; cbn [nth]; [| |lia].
    + rewrite Nat.add_0_r. div_lia.
    + replace (p + 1)%nat with (S p) by lia. div_lia.
  - (* three octets *)
    rewrite retval_3 in * by lia. subst c.
    rewrite utf8_encode_3 by lia. cbn [length].
    split; [lia|]. intros [|[|[|i]]] Hi; cbn [nth]; [| | |lia].
    + rewrite Nat.add_0_r. div_lia.
    + replace (p + 1)%nat with (S p) by lia. div_lia.
    + replace (p + 2)%nat with (S (S p)) by lia. div_lia.
  - (* four octets *)
    rewrite retval_4 in * by lia. subst c.
    rewrite utf8_encode_4 by lia. cbn [length].
    split; [lia|]. intros [|[|[|[|i]]]] Hi; cbn [nth]; [| | | |lia].
    + rewrite Nat.add_0_r. div_lia.
    + replace (p + 1)%nat with (S p) by lia. div_lia.
    + replace (p + 2)%nat with (S (S p)) by lia. div_lia.
    + replace (p + 3)%nat with (S (S (S p))) by lia. div_lia.
Qed.

Lemma decoder_accepts_shortest_form_witness :
  let m := c_string [0xF0; 0x9F; 0x98; 0x80] in
  4%nat = (0 + length (utf8_encode 0x1F600))%nat /\
  forall i, (i < length (utf8_encode 0x1F600))%nat ->
    load m (0 + i) = nth i (utf8_encode 0x1F600) 0.
Proof.
  cbv zeta.
  refine (decoder_accepts_shortest_form
            (c_string [0xF0; 0x9F; 0x98; 0x80]) 0 0x1F600 4 _ _ _).
  - vm_compute. reflexivity.
  - discriminate.
  - discriminate.
Defined.

(** ** Strings of single octets *)

Lemma holds_string_cons (m : memory) (p : nat) (b : Z) (l : list Z) :
  holds_string m p (b :: l) -> m p = b /\ holds_string m (p + 1) l.
Proof.
  unfold holds_string, holds. intros H. split.
  - specialize (H 0%nat ltac:(cbn; lia)). rewrite Nat.add_0_r in H. exact H.
  - intros i Hi. specialize (H (S i) ltac:(cbn; lia)).
    replace (p + 1 + i)%nat with (p + S i)%nat by lia. exact H.
Qed.

Lemma holds_string_nil (m : memory) (p : nat) :
  holds_string m p [] -> load m p = 0.
Proof.
  unfold holds_string, holds. intros H.
  specialize (H 0%nat ltac:(cbn; lia)). rewrite Nat.add_0_r in H.
  rewrite load_uint8_t, H. reflexivity.
Qed.

(** One turn of the loop at an octet 01 .. BF: the unit of the octet is
    stored, and the cursor moves by one. *)
Lemma turn_single_octet (m : memory) (s : state) (b : Z) :
  load m (src s) = b -> 1 <= b <= 0xBF ->
  loop_body m s =
  Continue (shrink (store (single_octet_unit b)
              (State (src s + 1) (dst s) (len s) (calls s ++ [src s])))).
Proof.
  intros Hload Hb. unfold single_octet_unit.
  destruct (Z.ltb_spec b 0x80) as [Hlt|Hge].
  - pose proof (decoder_one_octet m (src s) ltac:(lia)) as Hdec.
    rewrite Hload in Hdec.
    apply (turn_one_unit m s b (src s + 1) Hdec);
      unfold UNICODE_BOGUS_CHAR_VALUE; lia.
  - pose proof (decoder_stray_continuation m (src s) ltac:(lia)) as Hdec.
    exact (turn_bogus m s _ (src s + 1) Hdec eq_refl).
Qed.

(** The loop on a string of octets 01 .. BF: one unit for each octet,
    as many as the budget has room for. *)
Lemma while_loop_single_octets (m : memory) (l : list Z) :
  Forall (fun b => 1 <= b <= 0xBF) l ->
  forall s, holds_string m (src s) l -> 0 <= len s < 2 ^ 64 ->
  dst (while_loop m s) =
    dst s ++ firstn (Z.to_nat (len s / 2)) (map single_octet_unit l).
Proof.
  intros Hl. induction Hl as [|b l Hb Hl IH]; intros s Hm Hlen.
  - cbn [map]. rewrite firstn_nil, app_nil_r.
    destruct (Z_lt_dec (len s) sizeof_uint16_t) as [Hlt|Hge].
    + rewrite while_loop_exit by exact Hlt. reflexivity.
    + rewrite (while_loop_Break m s _ ltac:(lia)
                 (turn_end_of_string m s 0 (src s)
                    (decoder_at_terminator m (src s)
                       (holds_string_nil m (src s) Hm)) eq_refl)).
      reflexivity.
  - destruct (holds_string_cons m (src s) b l Hm) as [Hb0 Hm'].
    assert (Hload : load m (src s) = b).
    { rewrite load_uint8_t, Hb0. apply Z.mod_small. lia. }
    destruct (Z_lt_dec (len s) sizeof_uint16_t) as [Hlt|Hge].
    + rewrite while_loop_exit by exact Hlt.
      unfold sizeof_uint16_t in Hlt.
      replace (len s / 2) with 0 by div_lia.
      cbn [Z.to_nat firstn]. rewrite app_nil_r. reflexivity.
    + unfold sizeof_uint16_t in Hge.
      rewrite (while_loop_Continue m s _
                 ltac:(unfold sizeof_uint16_t; lia)
                 (turn_single_octet m s b Hload Hb)).
      rewrite IH.
      * cbn [shrink store dst len map]. unfold sizeof_uint16_t.
        rewrite size_t_sub_small by lia.
        assert (Hu : 0 <= single_octet_unit b < 2 ^ 16).
        { unfold single_octet_unit, UNICODE_BOGUS_CHAR_CODEPOINT.
          destruct (b <? 0x80); lia. }
        rewrite uint16_t_small by exact Hu.
        assert (Hq : len s / 2 = (len s - 2) / 2 + 1 /\ 0 <= (len s - 2) / 2)
          by div_lia.
        destruct Hq as [-> Hq].
        rewrite Z2Nat.inj_add by lia.
        change (Z.to_nat 1) with 1%nat. rewrite Nat.add_1_r.
        cbn [firstn]. rewrite <- app_assoc. reflexivity.
      * cbn [shrink store src]. exact Hm'.
      * cbn [shrink store len]. apply size_t_range.
Qed.

Lemma transcode_single_octets (m : memory) (l : list Z) (cap : Z) :
  Forall (fun b => 1 <= b <= 0xBF) l -> holds_string m 0 l ->
  dst (FAudio_UTF8_To_UTF16 m cap) =
    firstn (Z.to_nat (size_t (cap - sizeof_uint16_t) / 2))
      (map single_octet_unit l) ++ [0].
Proof.
  intros Hl Hm. unfold FAudio_UTF8_To_UTF16. cbn [store dst].
  rewrite (while_loop_single_octets m l Hl (initial cap) Hm
             (size_t_range (cap - sizeof_uint16_t))).
  reflexivity.
Qed.

Lemma ascii_units (l : list Z) : ascii l -> map single_octet_unit l = l.
Proof.
  intros Hl. induction Hl as [|b l Hb Hl IH]; [reflexivity|].
  cbn [map]. rewrite IH. unfold single_octet_unit.
  destruct (Z.ltb_spec b 0x80); [reflexivity | lia].
Qed.

Lemma ascii_single_octets (l : list Z) :
  ascii l -> Forall (fun b => 1 <= b <= 0xBF) l.
Proof. apply Forall_impl. intros b Hb. lia. Qed.

(** A string of ASCII octets on a capacity with room for the
    terminator: each octet is stored as one unit of the same value, up
    to [len / 2 - 1] units, and the terminator behind them; the whole
    string when the capacity has room for it. *)
Theorem transcode_ascii (m : memory) (l : list Z) (cap : Z) :
  ascii l -> holds_string m 0 l ->
  sizeof_uint16_t <= cap < 2 ^ 64 ->
  dst (FAudio_UTF8_To_UTF16 m cap) =
    firstn (Z.to_nat (cap / 2 - 1)) l ++ [0] /\
  (2 * (Z.of_nat (length l) + 1) <= cap ->
   dst (FAudio_UTF8_To_UTF16 m cap) = l ++ [0]).
Proof.
  unfold sizeof_uint16_t. intros Hl Hm Hcap.
  rewrite (transcode_single_octets m l cap (ascii_single_octets l Hl) Hm).
  rewrite (ascii_units l Hl). unfold sizeof_uint16_t.
  rewrite size_t_sub_small by lia.
  replace ((cap - 2) / 2) with (cap / 2 - 1) by div_lia.
  split; [reflexivity|]. intros Hroom.
  rewrite firstn_all2; [reflexivity|].
  assert (Z.of_nat (length l) <= cap / 2 - 1) by div_lia. lia.
Qed.

Lemma transcode_ascii_witness :
  dst (FAudio_UTF8_To_UTF16 (c_string [0x46; 0x4E; 0x41]) 6) =
    [0x46; 0x4E; 0] /\
  dst (FAudio_UTF8_To_UTF16 (c_string [0x46; 0x4E; 0x41]) 8) =
    [0x46; 0x4E; 0x41; 0].
Proof.
  assert (Hl : ascii [0x46; 0x4E; 0x41])
    by (repeat constructor; lia).
  pose proof (c_string_holds [0x46; 0x4E; 0x41]) as Hm.
  split.
  - exact (proj1 (transcode_ascii _ _ 6 Hl Hm
             ltac:(unfold sizeof_uint16_t; lia))).
  - apply (proj2 (transcode_ascii _ _ 8 Hl Hm
             ltac:(unfold sizeof_uint16_t; lia))).
    cbn [length]. lia.
Defined.

(** A capacity of 0 or 1 bytes is no bound: the budget wraps around,
    and a string of ASCII octets is stored whole with its terminator,
    [2 * (length + 1)] bytes. *)
Theorem transcode_ascii_no_bound (m : memory) (l : list Z) (cap : Z) :
  ascii l -> holds_string m 0 l ->
  0 <= cap < sizeof_uint16_t -> Z.of_nat (length l) < 2 ^ 63 ->
  dst (FAudio_UTF8_To_UTF16 m cap) = l ++ [0].
Proof.
  unfold sizeof_uint16_t. intros Hl Hm Hcap Hlen.
  rewrite (transcode_single_octets m l cap (ascii_single_octets l Hl) Hm).
  rewrite (ascii_units l Hl). unfold sizeof_uint16_t.
  rewrite firstn_all2; [reflexivity|].
  assert (size_t (cap - 2) = 2 ^ 64 - 2 + cap).
  { unfold size_t. symmetry. apply (Z.mod_unique _ _ (-1)); lia. }
  assert (2 ^ 63 - 1 <= size_t (cap - 2) / 2) by div_lia. lia.
Qed.

Lemma transcode_ascii_no_bound_witness :
  dst (FAudio_UTF8_To_UTF16 (c_string [0x46; 0x4E; 0x41]) 0) =
    [0x46; 0x4E; 0x41; 0].
Proof.
  refine (transcode_ascii_no_bound (c_string [0x46; 0x4E; 0x41])
            [0x46; 0x4E; 0x41] 0 _ (c_string_holds _) _ _).
  - repeat constructor; lia.
  - unfold sizeof_uint16_t. lia.
  - cbn [length]. lia.
Defined.

Lemma firstn_repeat_min {A : Type} (x : A) (n k : nat) :
  firstn k (repeat x n) = repeat x (Nat.min n k).
Proof.
  revert k. induction n as [|n IH]; intros [|k]; cbn; try reflexivity.
  rewrite IH. reflexivity.
Qed.

(** Stray continuation octets come out as '?', one for each octet: a
    string of octets 80 .. BF is stored as that many '?', up to
    [len / 2 - 1] units, and the terminator. *)
Theorem transcode_stray_continuations (m : memory) (l : list Z) (cap : Z) :
  Forall (fun b => 0x80 <= b <= 0xBF) l -> holds_string m 0 l ->
  sizeof_uint16_t <= cap < 2 ^ 64 ->
  dst (FAudio_UTF8_To_UTF16 m cap) =
    repeat UNICODE_BOGUS_CHAR_CODEPOINT
      (Nat.min (length l) (Z.to_nat (cap / 2 - 1))) ++ [0].
Proof.
  unfold sizeof_uint16_t. intros Hl Hm Hcap.
  rewrite (transcode_single_octets m l cap); [|
    revert Hl; apply Forall_impl; intros b Hb; lia | exact Hm].
  unfold sizeof_uint16_t. rewrite size_t_sub_small by lia.
  replace ((cap - 2) / 2) with (cap / 2 - 1) by div_lia.
  f_equal.
  assert (Hmap : map single_octet_unit l =
                 repeat UNICODE_BOGUS_CHAR_CODEPOINT (length l)).
  { clear Hm. induction Hl as [|b l Hb Hl IH]; [reflexivity|].
    cbn [map length repeat]. rewrite IH. unfold single_octet_unit.
    destruct (Z.ltb_spec b 0x80); [lia | reflexivity]. }
  rewrite Hmap. apply firstn_repeat_min.
Qed.

Lemma transcode_stray_continuations_witness :
  dst (FAudio_UTF8_To_UTF16 (c_string [0x80; 0xBF; 0x9C]) 6) =
    [0x3F; 0x3F; 0].
Proof.
  refine (transcode_stray_continuations (c_string [0x80; 0xBF; 0x9C])
            [0x80; 0xBF; 0x9C] 6 _ (c_string_holds _) _).
  - repeat constructor; lia.
  - unfold sizeof_uint16_t. lia.
Defined.

(** ** The units stored *)

(** A turn of the loop that does not [break] appends one or two units,
    none of them 0 and all of 16 bits. *)
Lemma loop_body_units (m : memory) (s s' : state) :
  loop_body m s = Continue s' ->
  exists units, dst s' = dst s ++ units /\
    Forall (fun u => 0 < u < 2 ^ 16) units.
Proof.
  intros Hbody.
  destruct (FAudio_UTF8_CodePoint m (src s)) as [cp p'] eqn:Hcp.
  assert (Hs' : s' = after (loop_body m s)) by (rewrite Hbody; reflexivity).
  destruct (Z.eq_dec cp 0) as [H0|H0].
  { rewrite (turn_end_of_string m s cp p' Hcp H0) in Hbody. discriminate. }
  destruct (Z.eq_dec cp UNICODE_BOGUS_CHAR_VALUE) as [Hb|Hb].
  { rewrite (turn_bogus m s cp p' Hcp Hb) in Hs'. subst s'.
    exists [UNICODE_BOGUS_CHAR_CODEPOINT]. split; [reflexivity|].
    repeat constructor. }
  pose proof (decoder_value_range m (src s) cp p' Hcp Hb) as Hr.
  destruct (Z_le_dec cp 0xFFFF) as [Hle|Hgt].
  { rewrite (turn_one_unit m s cp p' Hcp H0 Hb Hle) in Hs'. subst s'.
    exists [cp]. cbn [after shrink store dst].
    rewrite uint16_t_small by lia. split; [reflexivity|].
    repeat constructor; lia. }
  destruct (Z_lt_dec (len s) (sizeof_uint16_t * 2)) as [Hroom|Hroom].
  { rewrite (turn_no_room m s cp p' Hcp Hb ltac:(lia) Hroom) in Hbody.
    discriminate. }
  rewrite (turn_pair m s cp p' Hcp Hb ltac:(lia) ltac:(lia)) in Hs'.
  subst s'. pose proof (high_surrogate_range cp).
  pose proof (low_surrogate_range cp).
  exists [high_surrogate cp; low_surrogate cp].
  cbn [after shrink store dst]. rewrite !uint16_t_small by lia.
  rewrite <- app_assoc. split; [reflexivity|].
  repeat constructor; lia.
Qed.

(** The destination is a string: whatever the source and the capacity,
    the units stored before the terminator are 16 bit values other
    than 0, so that the terminator stored last is the first 0 of the
    destination. *)
Theorem transcode_no_zero_before_terminator (m : memory) (cap : Z) :
  exists content,
    dst (FAudio_UTF8_To_UTF16 m cap) = content ++ [0] /\
    Forall (fun u => 0 < u < 2 ^ 16) content.
Proof.
  unfold FAudio_UTF8_To_UTF16. cbn [store dst].
  exists (dst (while_loop m (initial cap))). split; [reflexivity|].
  apply (while_loop_rule m
    (fun s => Forall (fun u => 0 < u < 2 ^ 16) (dst s))
    (fun s => Forall (fun u => 0 < u < 2 ^ 16) (dst s))).
  - intros s H _. exact H.
  - intros s s' H _ Hbody. apply loop_body_Break in Hbody.
    destruct Hbody as [-> _]. exact H.
  - intros s s' H _ Hbody.
    destruct (loop_body_units m s s' Hbody) as (units & -> & Hu).
    apply Forall_app. split; assumption.
  - constructor.
Qed.

(** ** Larger capacities *)

(** A turn that the smaller budget lets through is the same turn with
    the larger budget. *)
Lemma loop_body_ahead (m : memory) (s1 s2 s1' : state) :
  ahead s1 s2 -> sizeof_uint16_t <= len s1 ->
  loop_body m s1 = Continue s1' ->
  exists s2', loop_body m s2 = Continue s2' /\ ahead s1' s2'.
Proof.
  unfold sizeof_uint16_t. intros (Hsrc & Hdst & Hlen & Hmax) Hin Hbody.
  destruct (FAudio_UTF8_CodePoint m (src s1)) as [cp p'] eqn:Hcp.
  assert (Hcp2 : FAudio_UTF8_CodePoint m (src s2) = (cp, p'))
    by (rewrite Hsrc; exact Hcp).
  assert (Hs' : s1' = after (loop_body m s1))
    by (rewrite Hbody; reflexivity).
  destruct (Z.eq_dec cp 0) as [H0|H0].
  { rewrite (turn_end_of_string m s1 cp p' Hcp H0) in Hbody. discriminate. }
  destruct (Z.eq_dec cp UNICODE_BOGUS_CHAR_VALUE) as [Hb|Hb].
  { rewrite (turn_bogus m s1 cp p' Hcp Hb) in Hs'. subst s1'.
    eexists. split; [exact (turn_bogus m s2 cp p' Hcp2 Hb)|].
    unfold ahead. cbn [after shrink store src dst len].
    unfold sizeof_uint16_t. rewrite !size_t_sub_small by lia.
    rewrite Hdst. repeat split; lia. }
  destruct (Z_le_dec cp 0xFFFF) as [Hle|Hgt].
  { rewrite (turn_one_unit m s1 cp p' Hcp H0 Hb Hle) in Hs'. subst s1'.
    eexists. split; [exact (turn_one_unit m s2 cp p' Hcp2 H0 Hb Hle)|].
    unfold ahead. cbn [after shrink store src dst len].
    unfold sizeof_uint16_t. rewrite !size_t_sub_small by lia.
    rewrite Hdst. repeat split; lia. }
  destruct (Z_lt_dec (len s1) (sizeof_uint16_t * 2)) as [Hroom|Hroom].
  { rewrite (turn_no_room m s1 cp p' Hcp Hb ltac:(lia) Hroom) in Hbody.
    discriminate. }
  unfold sizeof_uint16_t in Hroom.
  rewrite (turn_pair m s1 cp p' Hcp Hb ltac:(lia)
             ltac:(unfold sizeof_uint16_t; lia)) in Hs'.
  subst s1'.
  eexists. split;
    [exact (turn_pair m s2 cp p' Hcp2 Hb ltac:(lia)
              ltac:(unfold sizeof_uint16_t; lia))|].
  unfold ahead. cbn [after shrink store src dst len].
  unfold sizeof_uint16_t.
  rewrite (size_t_sub_small (len s1)), (size_t_sub_small (len s2)) by lia.
  rewrite !size_t_sub_small by lia.
  rewrite Hdst. repeat split; lia.
Qed.

(** The loop only appends to the units stored. *)
Lemma while_loop_appends (m : memory) (s : state) :
  exists units, dst (while_loop m s) = dst s ++ units.
Proof.
  apply (while_loop_rule m
    (fun t => exists units, dst t = dst s ++ units)
    (fun t => exists units, dst t = dst s ++ units)).
  - intros t H _. exact H.
  - intros t t' [units H] _ Hbody. apply loop_body_Break in Hbody.
    destruct Hbody as [-> _]. exists units. exact H.
  - intros t t' [units H] _ Hbody.
    destruct (loop_body_units m t t' Hbody) as (more & -> & _).
    exists (units ++ more). rewrite H, app_assoc. reflexivity.
  - exists []. rewrite app_nil_r. reflexivity.
Qed.

(** Truncation keeps a prefix: what a capacity stores before the
    terminator is the beginning of what any larger capacity stores. *)
Theorem transcode_capacity_prefix (m : memory) (cap cap' : Z) :
  sizeof_uint16_t <= cap <= cap' -> cap' < 2 ^ 64 ->
  exists content more,
    dst (FAudio_UTF8_To_UTF16 m cap) = content ++ [0] /\
    dst (FAudio_UTF8_To_UTF16 m cap') = (content ++ more) ++ [0].
Proof.
  unfold sizeof_uint16_t. intros Hcap Hmax.
  unfold FAudio_UTF8_To_UTF16. cbn [store dst].
  exists (dst (while_loop m (initial cap))).
  cut (exists more, dst (while_loop m (initial cap')) =
                    dst (while_loop m (initial cap)) ++ more).
  { intros [more ->]. exists more. split; reflexivity. }
  apply (while_loop_rule m
    (fun s1 => exists s2, ahead s1 s2 /\
       while_loop m s2 = while_loop m (initial cap'))
    (fun s1 => exists more,
       dst (while_loop m (initial cap')) = dst s1 ++ more)).
  - intros s1 (s2 & (_ & Hdst & _) & <-) _.
    rewrite <- Hdst. apply while_loop_appends.
  - intros s1 s1' (s2 & (_ & Hdst & _) & <-) _ Hbody.
    apply loop_body_Break in Hbody. destruct Hbody as [-> _].
    rewrite <- Hdst. apply while_loop_appends.
  - intros s1 s1' (s2 & Hahead & Hloop) Hin Hbody.
    destruct (loop_body_ahead m s1 s2 s1' Hahead Hin Hbody)
      as (s2' & Hbody2 & Hahead').
    exists s2'. split; [exact Hahead'|].
    rewrite <- Hloop. symmetry.
    apply while_loop_Continue; [|exact Hbody2].
    destruct Hahead as (_ & _ & ? & _). lia.
  - exists (initial cap'). split; [|reflexivity].
    unfold ahead, initial. cbn [src dst len]. unfold sizeof_uint16_t.
    rewrite !size_t_sub_small by lia. repeat split; lia.
Qed.

Lemma transcode_capacity_prefix_witness :
  exists content more,
    dst (FAudio_UTF8_To_UTF16 (c_string [0x41; 0xC3; 0xA9; 0x42]) 6) =
      content ++ [0] /\
    dst (FAudio_UTF8_To_UTF16 (c_string [0x41; 0xC3; 0xA9; 0x42]) 8) =
      (content ++ more) ++ [0].
Proof.
  apply (transcode_capacity_prefix (c_string [0x41; 0xC3; 0xA9; 0x42]) 6 8).
  - unfold sizeof_uint16_t. lia.
  - lia.
Defined.

(** ** Strings without a six octet sequence *)

Lemma NUL_terminator (m : memory) (n p : nat) :
  NUL m n -> (p <= n)%nat -> load m p = 0 -> p = n.
Proof.
  intros [_ Hbefore] Hp Hload.
  destruct (Nat.eq_dec p n) as [e|Hne]; [exact e|].
  exfalso. apply (Hbefore p ltac:(lia)). rewrite <- load_uint8_t. exact Hload.
Qed.

(** At the terminator the loop stores nothing. *)
Lemma while_loop_at_terminator (m : memory) (s : state) :
  load m (src s) = 0 -> dst (while_loop m s) = dst s.
Proof.
  intros Hload.
  destruct (Z_lt_dec (len s) sizeof_uint16_t) as [Hlt|Hge].
  - rewrite while_loop_exit by exact Hlt. reflexivity.
  - rewrite (while_loop_Break m s _ ltac:(lia)
               (turn_end_of_string m s 0 (src s)
                  (decoder_at_terminator m (src s) Hload) eq_refl)).
    reflexivity.
Qed.

(** A scalar above 0xFFFF takes four octets. *)
Lemma decoder_pair_octets (m : memory) (p : nat) (cp : Z) (p' : nat) :
  FAudio_UTF8_CodePoint m p = (cp, p') ->
  cp <> UNICODE_BOGUS_CHAR_VALUE -> 0xFFFF < cp -> p' = (p + 4)%nat.
Proof.
  intros H Hb Hgt. pose proof (load_range m p).
  assert (Hc : cp = fst (FAudio_UTF8_CodePoint m p))
    by (rewrite H; reflexivity).
  assert (Hp : p' = snd (FAudio_UTF8_CodePoint m p))
    by (rewrite H; reflexivity).
  clear H. subst p'. revert Hc.
  decoder_paths; cbn [fst snd]; tests_to_Prop; intros Hc;
    try congruence; lia.
Qed.

(** A turn that does not [break] stores no more units than the cursor
    moves over octets. *)
Lemma loop_body_units_le_octets (m : memory) (s s' : state) :
  loop_body m s = Continue s' ->
  (length (dst s') + src s <= length (dst s) + src s')%nat.
Proof.
  intros Hbody.
  destruct (loop_body_src m s) as [Hsrc _].
  rewrite Hbody in Hsrc. cbn [after] in Hsrc. rewrite Hsrc.
  pose proof (decoder_progress m (src s)
                (loop_body_Continue_not_0 m s s' Hbody)) as Hprog.
  destruct (FAudio_UTF8_CodePoint m (src s)) as [cp p'] eqn:Hcp.
  cbn [snd] in *.
  assert (Hs' : s' = after (loop_body m s)) by (rewrite Hbody; reflexivity).
  destruct (Z.eq_dec cp 0) as [H0|H0].
  { rewrite (turn_end_of_string m s cp p' Hcp H0) in Hbody. discriminate. }
  destruct (Z.eq_dec cp UNICODE_BOGUS_CHAR_VALUE) as [Hb|Hb].
  { rewrite (turn_bogus m s cp p' Hcp Hb) in Hs'. subst s'.
    cbn [after shrink store dst]. rewrite length_app. cbn [length]. lia. }
  destruct (Z_le_dec cp 0xFFFF) as [Hle|Hgt].
  { rewrite (turn_one_unit m s cp p' Hcp H0 Hb Hle) in Hs'. subst s'.
    cbn [after shrink store dst]. rewrite length_app. cbn [length]. lia. }
  destruct (Z_lt_dec (len s) (sizeof_uint16_t * 2)) as [Hroom|Hroom].
  { rewrite (turn_no_room m s cp p' Hcp Hb ltac:(lia) Hroom) in Hbody.
    discriminate. }
  rewrite (turn_pair m s cp p' Hcp Hb ltac:(lia) ltac:(lia)) in Hs'.
  subst s'. rewrite (decoder_pair_octets m (src s) cp p' Hcp Hb ltac:(lia)).
  cbn [after shrink store dst]. rewrite !length_app. cbn [length]. lia.
Qed.

(** A turn ends at a [break] at the terminator, or before a surrogate
    pair for which the budget has no room. *)
Lemma loop_body_Break_cases (m : memory) (s s' : state) :
  loop_body m s = Break s' ->
  load m (src s) = 0 \/
  (len s < sizeof_uint16_t * 2 /\
   snd (FAudio_UTF8_CodePoint m (src s)) = (src s + 4)%nat).
Proof.
  intros Hbody.
  destruct (FAudio_UTF8_CodePoint m (src s)) as [cp p'] eqn:Hcp.
  destruct (Z.eq_dec cp 0) as [H0|H0].
  { left. apply decoder_zero_iff. rewrite Hcp. exact H0. }
  right.
  destruct (Z.eq_dec cp UNICODE_BOGUS_CHAR_VALUE) as [Hb|Hb].
  { rewrite (turn_bogus m s cp p' Hcp Hb) in Hbody. discriminate. }
  destruct (Z_le_dec cp 0xFFFF) as [Hle|Hgt].
  { rewrite (turn_one_unit m s cp p' Hcp H0 Hb Hle) in Hbody. discriminate. }
  destruct (Z_lt_dec (len s) (sizeof_uint16_t * 2)) as [Hroom|Hroom].
  - split; [exact Hroom|]. cbn [snd].
    exact (decoder_pair_octets m (src s) cp p' Hcp Hb ltac:(lia)).
  - rewrite (turn_pair m s cp p' Hcp Hb ltac:(lia) ltac:(lia)) in Hbody.
    discriminate.
Qed.

(** Two bytes for each octet of the string and for its terminator are
    enough: on a string without an octet from 0xFC on, a capacity of
    [2 * (n + 1)] bytes stores what any larger capacity stores. *)
Theorem transcode_enough_capacity (m : memory) (n : nat) (cap cap' : Z) :
  NUL m n -> below_0xFC m n ->
  2 * (Z.of_nat n + 1) <= cap <= cap' -> cap' < 2 ^ 64 ->
  dst (FAudio_UTF8_To_UTF16 m cap) = dst (FAudio_UTF8_To_UTF16 m cap').
Proof.
  intros HNUL Hlow Hcap Hmax.
  unfold FAudio_UTF8_To_UTF16. cbn [store dst]. f_equal.
  apply (while_loop_rule m
    (fun s1 => (src s1 <= n)%nat /\ (length (dst s1) <= src s1)%nat /\
       2 * Z.of_nat (length (dst s1)) + len s1 = cap - 2 /\
       exists s2, ahead s1 s2 /\
         while_loop m s2 = while_loop m (initial cap'))
    (fun s1 => dst s1 = dst (while_loop m (initial cap')))).
  - intros s1 (Hsrc & Hunits & Hsum & s2 & (Hsrc2 & Hdst2 & Hlen & _) & <-).
    unfold sizeof_uint16_t. intros Hout.
    rewrite while_loop_at_terminator; [symmetry; exact Hdst2|].
    rewrite Hsrc2. replace (src s1) with n by lia. destruct HNUL as [Hn _].
    rewrite load_uint8_t. exact Hn.
  - intros s1 s1' (Hsrc & Hunits & Hsum & s2 & (Hsrc2 & Hdst2 & Hlen & _) & <-).
    unfold sizeof_uint16_t. intros Hin Hbody.
    destruct (loop_body_Break_cases m s1 s1' Hbody) as [Hload | [Hroom Hadv]].
    + apply loop_body_Break in Hbody. destruct Hbody as [-> _].
      rewrite while_loop_at_terminator; [symmetry; exact Hdst2|].
      rewrite Hsrc2. exact Hload.
    + exfalso. unfold sizeof_uint16_t in Hroom.
      pose proof (decoder_within_string m n (src s1) HNUL Hsrc
                    (below_0xFC_not_six m n (src s1) HNUL Hlow Hsrc)).
      lia.
  - intros s1 s1' (Hsrc & Hunits & Hsum & s2 & Hahead & Hloop) Hin Hbody.
    pose proof (loop_body_units_le_octets m s1 s1' Hbody) as Hle.
    destruct (loop_body_src m s1) as [Hsrc' _].
    rewrite Hbody in Hsrc'. cbn [after] in Hsrc'.
    pose proof (decoder_within_string m n (src s1) HNUL Hsrc
                  (below_0xFC_not_six m n (src s1) HNUL Hlow Hsrc)) as Hin'.
    rewrite <- Hsrc' in Hin'.
    destruct (loop_body_ahead m s1 s2 s1' Hahead Hin Hbody)
      as (s2' & Hbody2 & Hahead').
    split; [exact Hin'|]. split; [lia|]. split.
    + destruct Hahead as (_ & _ & ? & ?).
      destruct (loop_body_Continue m s1 s1' ltac:(lia) Hbody)
        as [(u & -> & ->) | (u & v & -> & -> & _)];
        rewrite length_app; cbn [length]; lia.
    + exists s2'. split; [exact Hahead'|].
      rewrite <- Hloop. symmetry.
      apply while_loop_Continue; [|exact Hbody2].
      destruct Hahead as (_ & _ & ? & _). lia.
  - cbn [initial src dst len length]. unfold sizeof_uint16_t.
    rewrite size_t_sub_small by lia.
    split; [lia|]. split; [lia|]. split; [lia|].
    exists (initial cap'). split; [|reflexivity].
    unfold ahead, initial. cbn [src dst len]. unfold sizeof_uint16_t.
    rewrite !size_t_sub_small by lia. repeat split; lia.
Qed.

Lemma transcode_enough_capacity_witness :
  dst (FAudio_UTF8_To_UTF16 (c_string [0xC3; 0xA9; 0x74; 0xC3; 0xA9]) 12) =
  dst (FAudio_UTF8_To_UTF16 (c_string [0xC3; 0xA9; 0x74; 0xC3; 0xA9]) 512).
Proof.
  refine (transcode_enough_capacity
            (c_string [0xC3; 0xA9; 0x74; 0xC3; 0xA9]) 5 12 512 _ _ _ _).
  - apply (c_string_NUL [0xC3; 0xA9; 0x74; 0xC3; 0xA9]).
    repeat constructor; discriminate.
  - intros i Hi.
    do 5 (destruct i as [|i]; [reflexivity|]). lia.
  - lia.
  - lia.
Defined.

Lemma transcode_within_string_witness :
  let st := FAudio_UTF8_To_UTF16 (c_string [0xC3; 0xA9; 0x74; 0xC3; 0xA9]) 512
  in Forall (fun p => (p <= 5)%nat) (calls st) /\
     (length (calls st) <= 5 + 1)%nat.
Proof.
  cbv zeta.
  refine (transcode_within_string
            (c_string [0xC3; 0xA9; 0x74; 0xC3; 0xA9]) 5 512 _ _).
  - apply (c_string_NUL [0xC3; 0xA9; 0x74; 0xC3; 0xA9]).
    repeat constructor; discriminate.
  - intros i Hi.
    do 5 (destruct i as [|i]; [reflexivity|]). lia.
Defined.

Lemma transcode_empty_witness :
  dst (FAudio_UTF8_To_UTF16 (c_string []) 512) = [0] /\
  dst (FAudio_UTF8_To_UTF16 (c_string []) 0) = [0].
Proof.
  split; apply transcode_empty; reflexivity.
Defined.

(** ** What lies behind the terminator *)

Lemma same_up_to_load (n : nat) (m m' : memory) (q : nat) :
  same_up_to n m m' -> (q <= n)%nat -> load m' q = load m q.
Proof. intros H Hq. unfold load. rewrite (H q Hq). reflexivity. Qed.

Lemma decoder_same_up_to (m m' : memory) (n p : nat) :
  NUL m n -> (p <= n)%nat -> same_up_to n m m' ->
  FAudio_UTF8_CodePoint m' p = FAudio_UTF8_CodePoint m p.
Proof.
  intros HNUL Hp Hsame.
  pose proof (NUL_load m n p HNUL) as H0.
  pose proof (NUL_load m n (S p) HNUL) as H1.
  pose proof (NUL_load m n (S (S p)) HNUL) as H2.
  pose proof (NUL_load m n (S (S (S p))) HNUL) as H3.
  pose proof (NUL_load m n (S (S (S (S p)))) HNUL) as H4.
  unfold FAudio_UTF8_CodePoint. cbv zeta.
  rewrite (same_up_to_load n m m' p Hsame Hp).
  repeat first
    [ reflexivity
    | match goal with
      | |- context [load m' ?q] =>
          rewrite (same_up_to_load n m m' q Hsame)
            by (tests_to_Prop; lia)
      end
    | match goal with
      | |- context [if ?b then _ else _] =>
          lazymatch b with
          | context [m'] => fail
          | _ => destruct b eqn:?
          end
      end ].
Qed.

(** A call of the decoder within a string reads nothing behind the
    terminator: it returns the same, and moves the cursor as far, in
    any memory with the same octets up to the terminator; and unless it
    has parsed a whole six octet sequence, it leaves the cursor within
    the string. *)
Theorem decoder_frame (m m' : memory) (n p : nat) :
  NUL m n -> (p <= n)%nat -> same_up_to n m m' ->
  FAudio_UTF8_CodePoint m' p = FAudio_UTF8_CodePoint m p /\
  (~ six_octets m p -> (snd (FAudio_UTF8_CodePoint m p) <= n)%nat).
Proof.
  intros HNUL Hp Hsame. split.
  - exact (decoder_same_up_to m m' n p HNUL Hp Hsame).
  - exact (decoder_within_string m n p HNUL Hp).
Qed.

Lemma decoder_frame_witness :
  FAudio_UTF8_CodePoint (c_string [0x41; 0xE2; 0x82; 0; 0xAC]) 1 =
  FAudio_UTF8_CodePoint (c_string [0x41; 0xE2; 0x82]) 1 /\
  (snd (FAudio_UTF8_CodePoint (c_string [0x41; 0xE2; 0x82]%Z) 1) <= 3)%nat.
Proof.
  pose proof (decoder_frame (c_string [0x41; 0xE2; 0x82])
                (c_string [0x41; 0xE2; 0x82; 0; 0xAC]) 3 1) as H.
  assert (HNUL : NUL (c_string [0x41; 0xE2; 0x82]) 3).
  { apply (c_string_NUL [0x41; 0xE2; 0x82]).
    repeat constructor; discriminate. }
  assert (Hsame : same_up_to 3 (c_string [0x41; 0xE2; 0x82])
                    (c_string [0x41; 0xE2; 0x82; 0; 0xAC])).
  { intros i Hi. do 4 (destruct i as [|i]; [reflexivity|]). lia. }
  destruct (H HNUL ltac:(lia) Hsame) as [H1 H2].
  split; [exact H1 | apply H2].
  intros [Hlead _]. apply Hlead. reflexivity.
Defined.

Lemma loop_body_frame (m m' : memory) (n : nat) (s : state) :
  NUL m n -> (src s <= n)%nat -> same_up_to n m m' ->
  loop_body m' s = loop_body m s.
Proof.
  intros HNUL Hsrc Hsame. unfold loop_body, decode.
  rewrite (decoder_same_up_to m m' n (src s) HNUL Hsrc Hsame). reflexivity.
Qed.

(** On a string without an octet from 0xFC on, the call does the same
    in any memory with the same octets up to the terminator: nothing
    behind the terminator is read. *)
Theorem transcode_frame (m m' : memory) (n : nat) (cap : Z) :
  NUL m n -> below_0xFC m n -> same_up_to n m m' ->
  FAudio_UTF8_To_UTF16 m' cap = FAudio_UTF8_To_UTF16 m cap.
Proof.
  intros HNUL Hlow Hsame. unfold FAudio_UTF8_To_UTF16. f_equal. symmetry.
  apply (while_loop_rule m
    (fun s => (src s <= n)%nat /\
              while_loop m' s = while_loop m' (initial cap))
    (fun s => s = while_loop m' (initial cap))).
  - intros s [_ <-] Hout. symmetry. apply while_loop_exit. exact Hout.
  - intros s s' [Hsrc <-] Hin Hbody. symmetry.
    apply (while_loop_Break m' s s' Hin).
    rewrite (loop_body_frame m m' n s HNUL Hsrc Hsame). exact Hbody.
  - intros s s' [Hsrc Hloop] Hin Hbody. split.
    + destruct (loop_body_src m s) as [Hsrc' _].
      rewrite Hbody in Hsrc'. cbn [after] in Hsrc'. rewrite Hsrc'.
      exact (decoder_within_string m n (src s) HNUL Hsrc
               (below_0xFC_not_six m n (src s) HNUL Hlow Hsrc)).
    + rewrite <- Hloop. symmetry.
      apply (while_loop_Continue m' s s' Hin).
      rewrite (loop_body_frame m m' n s HNUL Hsrc Hsame). exact Hbody.
  - split; [cbn; lia | reflexivity].
Qed.

Lemma transcode_frame_witness :
  FAudio_UTF8_To_UTF16 (c_string [0x41; 0xC3; 0xA9; 0; 0x42; 0x43]) 512 =
  FAudio_UTF8_To_UTF16 (c_string [0x41; 0xC3; 0xA9]) 512.
Proof.
  refine (transcode_frame (c_string [0x41; 0xC3; 0xA9])
            (c_string [0x41; 0xC3; 0xA9; 0; 0x42; 0x43]) 3 512 _ _ _).
  - apply (c_string_NUL [0x41; 0xC3; 0xA9]).
    repeat constructor; discriminate.
  - intros i Hi. do 3 (destruct i as [|i]; [reflexivity|]). lia.
  - intros i Hi. do 4 (destruct i as [|i]; [reflexivity|]). lia.
Defined.

(** ** Surrogate code points in the source *)

(** A surrogate code point encoded in three octets, other than the
    seven of the [switch], is decoded and stored as it is: the
    destination then holds a surrogate that is no half of a pair. *)
Theorem transcode_lone_surrogate (m : memory) (c : Z) :
  surrogate c ->
  ~ In c [0xD800; 0xDB7F; 0xDB80; 0xDBFF; 0xDC00; 0xDF80; 0xDFFF] ->
  holds_string m 0 (utf8_encode c) ->
  FAudio_UTF8_CodePoint m 0 = (c, 3%nat) /\
  dst (FAudio_UTF8_To_UTF16 m (2 * sizeof_uint16_t)) = [c; 0] /\
  dst (FAudio_UTF8_To_UTF16 m (3 * sizeof_uint16_t)) = [c; 0].
Proof.
  unfold surrogate. intros Hc Hseven Hm.
  assert (Hholds : holds m 0 (utf8_encode c)).
  { intros i Hi. rewrite (Hm i) by (rewrite length_app; lia).
    rewrite app_nth1 by exact Hi. reflexivity. }
  pose proof (round_trip_3 m 0 c Hholds ltac:(lia) Hseven) as Hdec.
  assert (Hend : load m 3 = 0).
  { rewrite load_uint8_t. rewrite utf8_encode_3 in Hm by lia.
    pose proof (Hm 3%nat ltac:(cbn; lia)) as H3.
    cbn [Nat.add app nth] in H3. rewrite H3. reflexivity. }
  split; [exact Hdec|].
  assert (Hturn : forall n, loop_body m (State 0 [] n []) =
            Continue (shrink (store c (State 3 [] n [0%nat])))).
  { intros n. apply (turn_one_unit m (State 0 [] n []) c 3 Hdec);
      unfold UNICODE_BOGUS_CHAR_VALUE; lia. }
  split; unfold FAudio_UTF8_To_UTF16.
  - change (initial (2 * sizeof_uint16_t)) with (State 0 [] 2 []).
    rewrite (while_loop_Continue m (State 0 [] 2 []) _
               ltac:(cbv; discriminate) (Hturn 2)).
    rewrite while_loop_exit by (vm_compute; reflexivity).
    cbn [store shrink dst app]. rewrite uint16_t_small by lia. reflexivity.
  - change (initial (3 * sizeof_uint16_t)) with (State 0 [] 4 []).
    rewrite (while_loop_Continue m (State 0 [] 4 []) _
               ltac:(cbv; discriminate) (Hturn 4)).
    cbn [store dst].
    rewrite while_loop_at_terminator by exact Hend.
    cbn [store shrink dst app]. rewrite uint16_t_small by lia. reflexivity.
Qed.

Lemma transcode_lone_surrogate_witness :
  let m := c_string [0xED; 0xA0; 0x81] in
  FAudio_UTF8_CodePoint m 0 = (0xD801, 3%nat) /\
  dst (FAudio_UTF8_To_UTF16 m (2 * sizeof_uint16_t)) = [0xD801; 0] /\
  dst (FAudio_UTF8_To_UTF16 m (3 * sizeof_uint16_t)) = [0xD801; 0].
Proof.
  cbv zeta.
  refine (transcode_lone_surrogate (c_string [0xED; 0xA0; 0x81]) 0xD801
            _ _ (c_string_holds [0xED; 0xA0; 0x81])).
  - unfold surrogate. lia.
  - cbn [In]. intuition discriminate.
Defined.
